(** * PyFrame: artists, their activation policies, and the canvas frame loop

    A shallow embedding of [PyFrame/pyframe.py].  Python objects live in a
    store indexed by addresses, so that an artist registered with a canvas and
    the same artist held by the caller are one object; calls into matplotlib
    and into the user's drawing callbacks are recorded, in order, in a log. *)

From stdpp Require Import gmap strings list sorting pretty.
From Stdlib Require Import Ascii.

Open Scope Z_scope.

(** ** Exceptions and results *)

(** [AttributeError] and [ValueError] are raised by the module's own code
    (a missing method or attribute, [list.remove] of an absent element).
    What the plotting library raises out of [savefig] is any of the four:
    [FileNotFoundError] for a missing folder, [ValueError] for a name with a
    dot that it takes for a file format, or another exception, given by the
    name of its class. *)
Inductive exn :=
  | AttributeError
  | ValueError
  | FileNotFoundError
  | LibraryError (name : string).

Inductive result (A : Type) :=
  | Ok (a : A)
  | Raise (e : exn).
Arguments Ok {A} a.
Arguments Raise {A} e.

(** ** The calls that leave the module

    [invoke f] is [self.artist_factory(ax)] for the callback named [f]; the
    callback is user code that only draws on the axes it is given.
    [fig_savefig path outcome] is [self.fig.savefig(path)] together with what
    the library did with it: it returned, having written the file, or it
    raised. *)

Definition factory := string.
Definition lims := (Z * Z)%type.

Inductive call :=
  | plt_figure (width height dpi : Z)
  | fig_add_subplot (code : Z)
  | ax_set_xlim (l : lims)
  | ax_set_ylim (l : lims)
  | ax_clear
  | invoke (f : factory)
  | plt_draw
  | plt_show
  | fig_savefig (path : string) (outcome : result unit).

(** ** Artists *)

(** The fields a subclass adds to the ones of [Artist]. *)
Inductive subclass :=
  | Artist_
  | TimedArtist_ (start end_ : Z)
  | ToggledArtist_ (state : string)
  | OneTimeArtist_ (drawn : bool) (when : Z).

Record artist := mkArtist {
  id : string;
  artist_factory : factory;
  layer : Z;
  deactivated : bool;
  cls : subclass
}.

Definition set_deactivated (b : bool) (self : artist) : artist :=
  mkArtist (id self) (artist_factory self) (layer self) b (cls self).

Definition set_cls (c : subclass) (self : artist) : artist :=
  mkArtist (id self) (artist_factory self) (layer self) (deactivated self) c.

(** [type(artist_factory, **kwargs)]: the class and its keyword arguments. *)
Inductive ctor :=
  | new_Artist (layer : Z)
  | new_TimedArtist (start end_ layer : Z)
  | new_ToggledArtist (state : string) (layer : Z)
  | new_OneTimeArtist (when layer : Z).

(** [__init__] of the four classes.  [new_id] is the token drawn by
    [np.random.choice]. *)
Definition init (new_id : string) (f : factory) (c : ctor) : artist :=
  match c with
  | new_Artist layer => mkArtist new_id f layer false Artist_
  | new_TimedArtist start end_ layer =>
      mkArtist new_id f layer false (TimedArtist_ start end_)
  | new_ToggledArtist state layer =>
      mkArtist new_id f layer false (ToggledArtist_ state)
  | new_OneTimeArtist when layer =>
      mkArtist new_id f layer false (OneTimeArtist_ false when)
  end.

(** Modelled from the spec: [_decorator.doc_inherit], the decorator on the
    methods the subclasses override, is not among the sources.  The spec
    gives each decorated method the behaviour of its body, so the decorator
    hands the method back. *)
Definition doc_inherit {A : Type} (method : A) : A := method.
Arguments doc_inherit {A} method /.

(** [draw(self, ax)]: the updated object and the calls it makes.  Only
    [OneTimeArtist.draw] writes a field. *)
Definition draw (self : artist) : artist * list call :=
  match cls self with
  | Artist_ => (self, [invoke (artist_factory self); plt_draw])
  | TimedArtist_ _ _ =>
      doc_inherit (self, [invoke (artist_factory self); plt_draw])
  | ToggledArtist_ _ =>
      doc_inherit (self, [invoke (artist_factory self); plt_draw])
  | OneTimeArtist_ _ when =>
      doc_inherit (set_cls (OneTimeArtist_ true when) self,
                   [invoke (artist_factory self); plt_draw])
  end.

Definition deactivate (self : artist) : artist := set_deactivated true self.

(** [toggle] exists on [ToggledArtist] only. *)
Definition toggle (self : artist) : result artist :=
  match cls self with
  | ToggledArtist_ state =>
      Ok (set_cls (ToggledArtist_
                     (if String.eqb state "inactive" then "active" else "inactive"))
                  self)
  | _ => Raise AttributeError
  end.

Definition isActive (self : artist) (frame_counter : Z) : bool :=
  match cls self with
  | Artist_ => negb (deactivated self)
  | TimedArtist_ start end_ =>
      doc_inherit ((frame_counter >=? start) && (frame_counter <=? end_)
                   && negb (deactivated self))
  | ToggledArtist_ state =>
      doc_inherit (String.eqb state "active" && negb (deactivated self))
  | OneTimeArtist_ _ when =>
      doc_inherit ((frame_counter =? when) && negb (deactivated self))
  end.

Definition isDone (self : artist) (frame_counter : Z) : bool :=
  match cls self with
  | Artist_ => deactivated self
  | TimedArtist_ _ end_ =>
      doc_inherit ((frame_counter >? end_) || deactivated self)
  | ToggledArtist_ _ => doc_inherit (deactivated self)
  | OneTimeArtist_ drawn _ => doc_inherit (drawn || deactivated self)
  end.

(** ** Equality

    [other] is any Python value.  Integers, strings and [None] have no
    attribute [id]; an instance of a foreign class has whatever its attribute
    dictionary holds. *)
Inductive value :=
  | VNone
  | VInt (n : Z)
  | VStr (s : string)
  | VArtist (a : artist)
  | VObject (attrs : gmap string string).

(** [other.id] *)
Definition getattr_id (other : value) : result string :=
  match other with
  | VArtist a => Ok (id a)
  | VObject attrs =>
      match attrs !! "id"%string with
      | Some s => Ok s
      | None => Raise AttributeError
      end
  | _ => Raise AttributeError
  end.

Definition __eq__ (self : artist) (other : value) : result bool :=
  match getattr_id other with
  | Ok i => Ok (String.eqb (id self) i)
  | Raise e => Raise e
  end.

(** ** The canvas and the world it runs in *)

Definition loc := nat.

Record Canvas := mkCanvas {
  frame_counter : Z;
  xlims : lims;
  ylims : lims;
  artists : list loc
}.

(** [objects] is the store of artist instances, [canvas] the one canvas,
    [calls] the log of calls made so far (oldest first). *)
Record world := mkWorld {
  objects : gmap loc artist;
  canvas : Canvas;
  calls : list call
}.

Global Instance artist_inhabited : Inhabited artist :=
  populate (mkArtist "" "" 0 false Artist_).

(** The object an address denotes.  In a well-formed world every managed
    address is allocated, and calls that are given allocated addresses keep
    the world well-formed ([exec_wf]); elsewhere the lookup falls back on an
    arbitrary artist. *)
Definition obj (w : world) (r : loc) : artist := objects w !!! r.

Definition wf (w : world) : Prop :=
  Forall (λ r, is_Some (objects w !! r)) (artists (canvas w)).

(** ** A state and exception monad over the world *)

Definition M (A : Type) : Type := world → result A * world.

Global Instance M_ret : MRet M := λ A a w, (Ok a, w).
Global Instance M_bind : MBind M := λ A B f m w,
  match m w with
  | (Ok a, w') => f a w'
  | (Raise e, w') => (Raise e, w')
  end.

Definition gets {A} (f : world → A) : M A := λ w, (Ok (f w), w).
Definition modify (f : world → world) : M unit := λ w, (Ok tt, f w).
Definition lift {A} (x : result A) : M A := λ w, (x, w).

Definition emit (cs : list call) : M unit :=
  modify (λ w, mkWorld (objects w) (canvas w) (calls w ++ cs)).
Definition store (r : loc) (a : artist) : M unit :=
  modify (λ w, mkWorld (<[r := a]> (objects w)) (canvas w) (calls w)).
Definition set_artists (l : list loc) : M unit :=
  modify (λ w, mkWorld (objects w)
                 (mkCanvas (frame_counter (canvas w)) (xlims (canvas w))
                    (ylims (canvas w)) l)
                 (calls w)).
Definition set_frame_counter (n : Z) : M unit :=
  modify (λ w, mkWorld (objects w)
                 (mkCanvas n (xlims (canvas w)) (ylims (canvas w))
                    (artists (canvas w)))
                 (calls w)).

(** ** Methods of an artist, called through its address *)

Definition artist_draw (r : loc) : M unit :=
  self ← gets (λ w, obj w r);
  store r (draw self).1;;
  emit (draw self).2.

Definition artist_deactivate (r : loc) : M unit :=
  self ← gets (λ w, obj w r);
  store r (deactivate self).

Definition artist_toggle (r : loc) : M unit :=
  self ← gets (λ w, obj w r);
  self' ← lift (toggle self);
  store r self'.

(** A constructor call: the new instance gets an address not in use. *)
Definition new (new_id : string) (f : factory) (c : ctor) : M loc :=
  r ← gets (λ w, fresh (dom (objects w)));
  store r (init new_id f c);;
  mret r.

(** ** [list.sort(key=lambda artist: artist.layer)]

    Python's sort is stable: elements with equal keys keep their order.
    Insertion from the right, placing an element before the first one whose
    key is not smaller, is such a sort; [stable_sort_unique] below shows the
    result does not depend on the algorithm. *)
Fixpoint sort_insert (key : loc → Z) (x : loc) (l : list loc) : list loc :=
  match l with
  | [] => [x]
  | y :: l' =>
      if key x <=? key y then x :: y :: l' else y :: sort_insert key x l'
  end.

Fixpoint list_sort (key : loc → Z) (l : list loc) : list loc :=
  match l with
  | [] => []
  | x :: l' => sort_insert key x (list_sort key l')
  end.

(** ** [list.remove(x)]

    Removes the first element that is [x] itself or compares equal to it;
    raises [ValueError] when there is none.  [h] is the store in which the
    elements' [__eq__] reads the ids. *)
Fixpoint list_remove (h : gmap loc artist) (x : loc) (l : list loc)
  : result (list loc) :=
  match l with
  | [] => Raise ValueError
  | y :: l' =>
      if bool_decide (y = x) then Ok l'
      else match __eq__ (h !!! y) (VArtist (h !!! x)) with
           | Ok true => Ok l'
           | Ok false =>
               match list_remove h x l' with
               | Ok l'' => Ok (y :: l'')
               | Raise e => Raise e
               end
           | Raise e => Raise e
           end
  end.

(** ** Methods of the canvas *)

Definition Canvas_init (width height : Z) (xlims ylims : lims) (dpi : Z)
    (h : gmap loc artist) (log : list call) : world :=
  mkWorld h (mkCanvas 1 xlims ylims [])
    (log ++ [plt_figure width height dpi; fig_add_subplot 111;
             ax_set_xlim xlims; ax_set_ylim ylims]).

Definition addArtist (artist : loc) : M unit :=
  l ← gets (λ w, artists (canvas w));
  set_artists (l ++ [artist]);;
  l ← gets (λ w, artists (canvas w));
  key ← gets (λ w r, layer (obj w r));
  set_artists (list_sort key l).

Definition addArtistFactory (new_id : string) (f : factory) (type : ctor)
  : M unit :=
  artist ← new new_id f type;
  l ← gets (λ w, artists (canvas w));
  set_artists (l ++ [artist]);;
  l ← gets (λ w, artists (canvas w));
  key ← gets (λ w r, layer (obj w r));
  set_artists (list_sort key l).

Definition getAllArtists (w : world) : list loc := artists (canvas w).

Definition getActiveArtists (w : world) : list loc :=
  filter (λ r, isActive (obj w r) (frame_counter (canvas w)) = true)
         (artists (canvas w)).

(** First loop of [Canvas.draw]: over the artists still to visit, with the
    marks collected so far. *)
Fixpoint draw_loop (l : list loc) (up_for_ramoval : list loc) : M (list loc) :=
  match l with
  | [] => mret up_for_ramoval
  | artist :: l' =>
      fc ← gets (λ w, frame_counter (canvas w));
      active ← gets (λ w, isActive (obj w artist) fc);
      (if active : bool then artist_draw artist else mret tt);;
      done ← gets (λ w, isDone (obj w artist) fc);
      draw_loop l' (if done : bool then up_for_ramoval ++ [artist]
                    else up_for_ramoval)
  end.

(** Second loop of [Canvas.draw]. *)
Fixpoint remove_loop (up_for_ramoval : list loc) : M unit :=
  match up_for_ramoval with
  | [] => mret tt
  | artist :: rest =>
      l ← gets (λ w, artists (canvas w));
      h ← gets objects;
      l' ← lift (list_remove h artist l);
      set_artists l';;
      remove_loop rest
  end.

Definition Canvas_draw : M unit :=
  l ← gets (λ w, artists (canvas w));
  up_for_ramoval ← draw_loop l [];
  remove_loop up_for_ramoval.

Definition resetAxes : M unit :=
  xl ← gets (λ w, xlims (canvas w));
  yl ← gets (λ w, ylims (canvas w));
  emit [ax_clear; ax_set_xlim xl; ax_set_ylim yl].

Definition show : M unit :=
  Canvas_draw;;
  emit [plt_show].

(** [savefig] is what [self.fig.savefig] does at this call; when it raises,
    the exception leaves [save] before the axes are reset and before the
    frame counter is advanced. *)
Definition save (folder fname : string) (savefig : result unit) : M unit :=
  Canvas_draw;;
  fc ← gets (λ w, frame_counter (canvas w));
  emit [fig_savefig (folder +:+ "/" +:+ fname +:+ "_" +:+ pretty fc) savefig];;
  lift savefig;;
  resetAxes;;
  fc ← gets (λ w, frame_counter (canvas w));
  set_frame_counter (fc + 1).

(** ** Programs over the module

    The calls that can change the world.  The other methods ([isActive],
    [isDone], [__eq__], [getAllArtists], [getActiveArtists]) are functions of
    the world above. *)
Inductive op :=
  | op_new (new_id : string) (f : factory) (type : ctor)
  | op_draw (artist : loc)
  | op_deactivate (artist : loc)
  | op_toggle (artist : loc)
  | op_addArtistFactory (new_id : string) (f : factory) (type : ctor)
  | op_addArtist (artist : loc)
  | op_Canvas_draw
  | op_resetAxes
  | op_show
  | op_save (folder fname : string) (savefig : result unit).

Definition exec (o : op) : M unit :=
  match o with
  | op_new new_id f type => new new_id f type;; mret tt
  | op_draw artist => artist_draw artist
  | op_deactivate artist => artist_deactivate artist
  | op_toggle artist => artist_toggle artist
  | op_addArtistFactory new_id f type => addArtistFactory new_id f type
  | op_addArtist artist => addArtist artist
  | op_Canvas_draw => Canvas_draw
  | op_resetAxes => resetAxes
  | op_show => show
  | op_save folder fname savefig => save folder fname savefig
  end.

(** A caller that goes on after an exception sees the world as the failed
    call left it. *)
Definition run (os : list op) (w : world) : world :=
  foldl (λ w o, (exec o w).2) w os.

Definition is_save (o : op) : bool :=
  match o with op_save _ _ _ => true | _ => false end.

(** A call of [save] in which [savefig] returns. *)
Definition save_returns (o : op) : bool :=
  match o with op_save _ _ (Ok _) => true | _ => false end.

(** [n] calls of [toggle]. *)
Fixpoint toggles (n : nat) (self : artist) : result artist :=
  match n with
  | O => Ok self
  | S n' =>
      match toggle self with
      | Ok self' => toggles n' self'
      | Raise e => Raise e
      end
  end.

(** The registering calls, the address each one registers, and the
    requirement that an artist handed to [addArtist] exists. *)
Inductive registration :=
  | reg_addArtist (artist : loc)
  | reg_addArtistFactory (new_id : string) (f : factory) (type : ctor).

Definition register (g : registration) : M unit :=
  match g with
  | reg_addArtist artist => addArtist artist
  | reg_addArtistFactory new_id f type => addArtistFactory new_id f type
  end.

Definition registered_loc (g : registration) (w : world) : loc :=
  match g with
  | reg_addArtist artist => artist
  | reg_addArtistFactory _ _ _ => fresh (dom (objects w))
  end.

Fixpoint registered (gs : list registration) (w : world) : list loc :=
  match gs with
  | [] => []
  | g :: gs' => registered_loc g w :: registered gs' (register g w).2
  end.

Fixpoint valid_registrations (gs : list registration) (w : world) : Prop :=
  match gs with
  | [] => True
  | g :: gs' =>
      match g with
      | reg_addArtist artist => is_Some (objects w !! artist)
      | reg_addArtistFactory _ _ _ => True
      end ∧ valid_registrations gs' (register g w).2
  end.

Definition register_all (gs : list registration) (w : world) : world :=
  foldl (λ w g, (register g w).2) w gs.

(** ** Vocabulary of the statements *)

(** What one visit of the first loop of [Canvas.draw] does to an artist. *)
Definition visit (fc : Z) (a : artist) : artist :=
  if isActive a fc then (draw a).1 else a.

(** Distinct managed artists have distinct ids. *)
Definition ids_distinct (w : world) : Prop :=
  Forall (λ r1, Forall (λ r2, id (obj w r1) = id (obj w r2) → r1 = r2)
                  (artists (canvas w)))
         (artists (canvas w)).

(** Ascending order of keys, and of the layers in a world. *)
Definition key_le (key : loc → Z) (r1 r2 : loc) : Prop := key r1 ≤ key r2.

Definition by_layer (w : world) : relation loc :=
  key_le (λ r, layer (obj w r)).

(** How an object can differ from an earlier version of itself. *)
Definition cls_le (c c' : subclass) : Prop :=
  match c, c' with
  | Artist_, Artist_ => True
  | TimedArtist_ s e, TimedArtist_ s' e' => s = s' ∧ e = e'
  | ToggledArtist_ _, ToggledArtist_ _ => True
  | OneTimeArtist_ d w, OneTimeArtist_ d' w' => w = w' ∧ (d = true → d' = true)
  | _, _ => False
  end.

Record artist_le (a a' : artist) : Prop := mk_artist_le {
  le_id : id a = id a';
  le_factory : artist_factory a = artist_factory a';
  le_layer : layer a = layer a';
  le_deactivated : deactivated a = true → deactivated a' = true;
  le_cls : cls_le (cls a) (cls a')
}.

(** How a world can differ from an earlier one. *)
Record world_le (w w' : world) : Prop := mk_world_le {
  le_objects : ∀ r a, objects w !! r = Some a →
                      ∃ a', objects w' !! r = Some a' ∧ artist_le a a';
  le_frame_counter : frame_counter (canvas w) ≤ frame_counter (canvas w');
  le_calls : calls w `prefix_of` calls w'
}.

(** Worlds on the same frame, with the same limits. *)
Definition same_frame (w w' : world) : Prop :=
  frame_counter (canvas w') = frame_counter (canvas w)
  ∧ xlims (canvas w') = xlims (canvas w)
  ∧ ylims (canvas w') = ylims (canvas w).

(** A computation all of whose end states, normal or exceptional, are related
    to the start state. *)
Definition preserves {A} (R : relation world) (m : M A) : Prop :=
  ∀ w, R w (m w).2.

(** ** Sample worlds *)

Definition sample_timed : artist := init "kqzjxwvbnm" "line" (new_TimedArtist 5 3 0).
Definition sample_toggled : artist :=
  init "plmoknijbu" "dots" (new_ToggledArtist "inactive" 0).
Definition sample_onetime : artist :=
  init "qwertyuiop" "flash" (new_OneTimeArtist 1 0).
Definition sample_plain : artist := init "asdfghjklz" "diag" (new_Artist 0).

Definition empty_world : world := Canvas_init 5 5 (0, 10) (0, 10) 100 ∅ [].

(** The canvas of the module's demo, at frame 1, with a one-time artist due
    at that frame. *)
Definition demo_world : world :=
  register_all
    [reg_addArtistFactory "asdfghjklz" "diag" (new_Artist 0);
     reg_addArtistFactory "kqzjxwvbnm" "line" (new_TimedArtist 10 20 0);
     reg_addArtistFactory "qwertyuiop" "flash" (new_OneTimeArtist 1 0)]
    empty_world.

(** A one-time artist due at frame 1 that was deactivated before it was
    registered. *)
Definition deactivated_onetime_world : world :=
  run [op_new "qwertyuiop" "flash" (new_OneTimeArtist 1 0);
       op_deactivate 0%nat;
       op_addArtist 0%nat]
    empty_world.

(** Two artists that drew the same id: a permanent one, then a one-time
    artist due at frame 1. *)
Definition collision_world : world :=
  run [op_addArtistFactory "qwertyuiop" "diag" (new_Artist 0);
       op_addArtistFactory "qwertyuiop" "flash" (new_OneTimeArtist 1 0)]
    empty_world.

(** The same one-time artist, due at frame 1, registered twice. *)
Definition twice_world : world :=
  run [op_new "qwertyuiop" "flash" (new_OneTimeArtist 1 0);
       op_addArtist 0%nat;
       op_addArtist 0%nat]
    empty_world.

(** The addresses a call is given are allocated. *)
Definition valid_op (o : op) (w : world) : Prop :=
  match o with
  | op_draw r | op_deactivate r | op_toggle r | op_addArtist r =>
      is_Some (objects w !! r)
  | _ => True
  end.

(** Related as by [world_le], and on the same frame with the same limits. *)
Definition step_le (w w' : world) : Prop := world_le w w' ∧ same_frame w w'.

(** Worlds that differ in the managed artists only. *)
Definition same_but_artists (w w' : world) : Prop :=
  objects w' = objects w ∧ calls w' = calls w ∧ same_frame w w'.

(** The calls one pass of [Canvas.draw] over [l] adds to the log. *)
Definition drawn_calls (w : world) (l : list loc) : list call :=
  flat_map (λ r, [invoke (artist_factory (obj w r)); plt_draw])
    (filter (λ r, isActive (obj w r) (frame_counter (canvas w)) = true) l).

Global Instance ids_distinct_dec (w : world) : Decision (ids_distinct w).
Proof. unfold ids_distinct. apply _. Defined.

(** A mixed sequence of registrations: layers 2, 0, 2, 1, then the first
    artist once more. *)
Definition sample_registrations : list registration :=
  [reg_addArtistFactory "aaaaaaaaaa" "f0" (new_Artist 2);
   reg_addArtistFactory "bbbbbbbbbb" "f1" (new_TimedArtist 10 20 0);
   reg_addArtistFactory "cccccccccc" "f2" (new_ToggledArtist "active" 2);
   reg_addArtistFactory "dddddddddd" "f3" (new_OneTimeArtist 5 1);
   reg_addArtist 0%nat].

Global Instance exn_eq_dec : EqDecision exn.
Proof. solve_decision. Defined.

Global Instance result_eq_dec {A} `{EqDecision A} : EqDecision (result A).
Proof. solve_decision. Defined.

Global Instance call_eq_dec : EqDecision call.
Proof. solve_decision. Defined.

(** ** The rest of the module: string forms *)

(** [str(b)] of a Python bool. *)
Definition str_bool (b : bool) : string := if b then "True" else "False".

(** [__str__] of the four classes; [%d] prints an integer in decimal. *)
Definition __str__ (self : artist) : string :=
  match cls self with
  | Artist_ => "Artist: " +:+ id self
  | TimedArtist_ start end_ =>
      "TimedArtist: " +:+ id self +:+ ", start: " +:+ pretty start
      +:+ ", end: " +:+ pretty end_
  | ToggledArtist_ state =>
      "ToggledArtist: " +:+ id self +:+ ", state: " +:+ state
  | OneTimeArtist_ drawn _ =>
      "OneTimeArtist: " +:+ id self +:+ ", drawn: " +:+ str_bool drawn
  end.

(** [getAllArtists(asString=True)] and [getActiveArtists(asString=True)]. *)
Definition getAllArtists_asString (w : world) : list string :=
  (λ r, __str__ (obj w r)) <$> artists (canvas w).

Definition getActiveArtists_asString (w : world) : list string :=
  (λ r, __str__ (obj w r))
    <$> filter (λ r, isActive (obj w r) (frame_counter (canvas w)) = true)
          (artists (canvas w)).

(** ** Vocabulary of the further statements *)

(** The path [save] writes at frame [n]. *)
Definition frame_path (folder fname : string) (n : Z) : string :=
  folder +:+ "/" +:+ fname +:+ "_" +:+ pretty n.

(** What a call adds to the log. *)
Definition emitted (o : op) (w : world) : list call :=
  let pass := drawn_calls w (artists (canvas w)) in
  let reset := [ax_clear; ax_set_xlim (xlims (canvas w));
                ax_set_ylim (ylims (canvas w))] in
  match o with
  | op_draw r => [invoke (artist_factory (obj w r)); plt_draw]
  | op_Canvas_draw => pass
  | op_resetAxes => reset
  | op_show => pass ++ [plt_show]
  | op_save folder fname savefig =>
      pass
      ++ fig_savefig (frame_path folder fname (frame_counter (canvas w)))
           savefig
         :: match savefig with Ok _ => reset | Raise _ => [] end
  | _ => []
  end.

(** What a call returns: [toggle] raises on an artist without that method,
    and [save] raises what [savefig] raises. *)
Definition outcome (o : op) (w : world) : result unit :=
  match o with
  | op_toggle r =>
      match toggle (obj w r) with Ok _ => Ok tt | Raise e => Raise e end
  | op_save _ _ savefig =>
      match savefig with Ok _ => Ok tt | Raise e => Raise e end
  | _ => Ok tt
  end.

(** The calls of [savefig] in a log, each with its path and what became of
    it, and the paths of those that returned: the files written. *)
Definition savefig_calls (log : list call) : list (string * result unit) :=
  omap (λ c, match c with
             | fig_savefig path io => Some (path, io)
             | _ => None
             end) log.

Definition saved_paths (log : list call) : list string :=
  omap (λ c, match c with
             | fig_savefig path (Ok _) => Some path
             | _ => None
             end) log.

(** The calls of [savefig] a program makes when it starts at frame [n], and
    the paths it writes. *)
Fixpoint savefig_by (os : list op) (n : Z) : list (string * result unit) :=
  match os with
  | [] => []
  | op_save folder fname (Ok u) :: os' =>
      (frame_path folder fname n, Ok u) :: savefig_by os' (n + 1)
  | op_save folder fname (Raise e) :: os' =>
      (frame_path folder fname n, Raise e) :: savefig_by os' n
  | _ :: os' => savefig_by os' n
  end.

Fixpoint saved_by (os : list op) (n : Z) : list string :=
  match os with
  | [] => []
  | op_save folder fname (Ok _) :: os' =>
      frame_path folder fname n :: saved_by os' (n + 1)
  | _ :: os' => saved_by os' n
  end.

(** Programs whose calls are given allocated addresses. *)
Fixpoint valid_ops (os : list op) (w : world) : Prop :=
  match os with
  | [] => True
  | o :: os' => valid_op o w ∧ valid_ops os' (exec o w).2
  end.

(** No two objects of the store have one id; a call that constructs an
    artist draws an id no object has; programs all of whose calls do. *)
Definition store_ids_distinct (w : world) : Prop :=
  ∀ r1 r2 a1 a2,
    objects w !! r1 = Some a1 → objects w !! r2 = Some a2 →
    id a1 = id a2 → r1 = r2.

Definition fresh_id (o : op) (w : world) : Prop :=
  match o with
  | op_new new_id _ _ | op_addArtistFactory new_id _ _ =>
      map_Forall (λ _ a, id a ≠ new_id) (objects w)
  | _ => True
  end.

Fixpoint fresh_ids (os : list op) (w : world) : Prop :=
  match os with
  | [] => True
  | o :: os' => fresh_id o w ∧ fresh_ids os' (exec o w).2
  end.

Global Instance valid_op_dec (o : op) (w : world) : Decision (valid_op o w).
Proof. destruct o; simpl; apply _. Defined.

Global Instance valid_ops_dec (os : list op) (w : world) :
  Decision (valid_ops os w).
Proof. revert w. induction os; intros w; simpl; apply _. Defined.

Global Instance fresh_id_dec (o : op) (w : world) : Decision (fresh_id o w).
Proof. destruct o; simpl; apply _. Defined.

Global Instance fresh_ids_dec (os : list op) (w : world) :
  Decision (fresh_ids os w).
Proof. revert w. induction os; intros w; simpl; apply _. Defined.

(** The address a call allocates. *)
Definition created (o : op) (w : world) : gset loc :=
  match o with
  | op_new _ _ _ | op_addArtistFactory _ _ _ => {[ fresh (dom (objects w)) ]}
  | _ => ∅
  end.

(** Whether a character occurs in a string. *)
Fixpoint occurs (c : ascii) (s : string) : bool :=
  match s with
  | EmptyString => false
  | String c' s' => bool_decide (c = c') || occurs c s'
  end.

(** A program of saves into several folders and under several names, all of
    which are written. *)
Definition sample_saves : list op :=
  [op_save "out" "test" (Ok tt); op_show; op_save "out" "test_1" (Ok tt);
   op_save "o" "ut/test" (Ok tt); op_resetAxes; op_save "out" "test" (Ok tt)].

(** A program in which the folder is missing at the second save and there
    when the save is tried again, and the third has a name with a dot that
    the library takes for a file format. *)
Definition sample_failing_saves : list op :=
  [op_save "out" "test" (Ok tt);
   op_save "frames" "test" (Raise FileNotFoundError);
   op_save "frames" "test" (Ok tt);
   op_save "out" "test.v1" (Raise ValueError);
   op_save "out" "test" (Ok tt)].

Global Instance by_layer_dec (w : world) : RelDecision (by_layer w).
Proof. intros r1 r2. unfold by_layer, key_le. apply _. Defined.

(** The canvas after the mixed registrations. *)
Definition layered_world : world :=
  register_all sample_registrations empty_world.

(** A [ToggledArtist] constructed with a state that is neither ['active']
    nor ['inactive']. *)
Definition sample_odd_toggled : artist :=
  init "zxcvbnmasd" "dots" (new_ToggledArtist "on" 0).

(** A program that registers, draws, toggles, deactivates and saves. *)
Definition sample_program : list op :=
  [op_addArtistFactory "aaaaaaaaaa" "f0" (new_ToggledArtist "active" 2);
   op_addArtistFactory "bbbbbbbbbb" "f1" (new_TimedArtist 1 1 0);
   op_new "cccccccccc" "f2" (new_OneTimeArtist 2 1);
   op_addArtist 2%nat;
   op_save "out" "test" (Ok tt);
   op_toggle 0%nat;
   op_addArtistFactory "dddddddddd" "f3" (new_Artist 1);
   op_save "out" "test" (Ok tt);
   op_deactivate 1%nat;
   op_show].

(** The calls of the canvas that run the pass or reset the axes, and the
    frames at which a program of such calls runs the pass. *)
Definition is_frame_op (o : op) : bool :=
  match o with
  | op_Canvas_draw | op_resetAxes | op_show | op_save _ _ _ => true
  | _ => false
  end.

Fixpoint pass_frames (os : list op) (n : Z) : list Z :=
  match os with
  | [] => []
  | op_save _ _ (Ok _) :: os' => n :: pass_frames os' (n + 1)
  | op_save _ _ (Raise _) :: os' | op_Canvas_draw :: os' | op_show :: os' =>
      n :: pass_frames os' n
  | _ :: os' => pass_frames os' n
  end.

(** A canvas at frame 1 with a permanent artist, a timed one with window
    [2, 3], a one-time artist due at frame 3 and a one-time artist with the
    default [when = 0]. *)
Definition lifetime_world : world :=
  run [op_addArtistFactory "aaaaaaaaaa" "A" (new_Artist 0);
       op_addArtistFactory "bbbbbbbbbb" "B" (new_TimedArtist 2 3 0);
       op_addArtistFactory "cccccccccc" "C" (new_OneTimeArtist 3 0);
       op_addArtistFactory "dddddddddd" "D" (new_OneTimeArtist 0 0)]
    empty_world.

(** Two artists are instances of one class. *)
Definition same_class (a b : artist) : Prop :=
  match cls a, cls b with
  | Artist_, Artist_
  | TimedArtist_ _ _, TimedArtist_ _ _
  | ToggledArtist_ _, ToggledArtist_ _
  | OneTimeArtist_ _ _, OneTimeArtist_ _ _ => True
  | _, _ => False
  end.

(** * Properties of a single artist *)

Lemma set_cls_same (self : artist) : set_cls (cls self) self = self.
Proof. by destruct self. Qed.

Lemma isActive_deactivated (self : artist) (f : Z) :
  deactivated self = true → isActive self f = false.
Proof.
  unfold isActive. intros ->. destruct (cls self); simpl;
    by rewrite ?andb_false_r.
Qed.

Lemma isDone_deactivated (self : artist) (f : Z) :
  deactivated self = true → isDone self f = true.
Proof.
  unfold isDone. intros ->. destruct (cls self); simpl;
    by rewrite ?orb_true_r.
Qed.

(** C2. A [TimedArtist] with window [start, end_] is active at frame [f]
    exactly when [start ≤ f ≤ end_] and it is not deactivated, and done
    exactly when [f > end_] or it is deactivated.  The constructor accepts
    any window; with [end_ < start] the artist is active at no frame. *)
Theorem TimedArtist_window (self : artist) (start end_ f : Z) :
  cls self = TimedArtist_ start end_ →
  (isActive self f = true ↔ start ≤ f ≤ end_ ∧ deactivated self = false)
  ∧ (isDone self f = true ↔ f > end_ ∨ deactivated self = true)
  ∧ (∀ new_id g l,
        cls (init new_id g (new_TimedArtist start end_ l))
        = TimedArtist_ start end_)
  ∧ (end_ < start → isActive self f = false).
Proof.
  intros Hcls. unfold isActive, isDone. rewrite Hcls.
  rewrite Z.geb_leb, Z.gtb_ltb.
  destruct (deactivated self); simpl; rewrite ?andb_true_r, ?andb_false_r,
    ?orb_true_r, ?orb_false_r.
  - repeat split; try done; try (intros [_ ?]; done); auto.
  - repeat split.
    + apply andb_true_iff in H as [H _]. lia.
    + apply andb_true_iff in H as [_ H]. lia.
    + intros [? _]. apply andb_true_iff. lia.
    + intros H%Z.ltb_lt. left. lia.
    + intros [H|H]; [apply Z.ltb_lt; lia | done].
    + intros Hlt. apply andb_false_iff. lia.
Qed.

Lemma TimedArtist_window_witness :
  cls sample_timed = TimedArtist_ 5 3 ∧ 3 < 5
  ∧ isActive sample_timed 4 = false.
Proof.
  split; [reflexivity|]. split; [lia|].
  destruct (TimedArtist_window sample_timed 5 3 4 eq_refl) as (_ & _ & _ & H).
  apply H. lia.
Defined.

(** C7. On a [ToggledArtist] whose state is ['active'] or ['inactive'],
    [toggle] succeeds and sets the other state, so that [isActive] of an
    artist that is not deactivated alternates; toggling twice gives back the
    artist one started from, and [n] calls leave it as constructed when [n]
    is even and toggled once when [n] is odd. *)
Theorem ToggledArtist_toggle_flips (self : artist) (state : string) :
  cls self = ToggledArtist_ state →
  state = "active"%string ∨ state = "inactive"%string →
  (∀ new_id g l,
      cls (init new_id g (new_ToggledArtist state l)) = ToggledArtist_ state)
  ∧ ∃ self',
      toggle self = Ok self'
      ∧ self' = set_cls (ToggledArtist_
                  (if String.eqb state "active" then "inactive" else "active"))
                  self
      ∧ (deactivated self = false →
         ∀ f, isActive self' f = negb (isActive self f))
      ∧ toggle self' = Ok self
      ∧ ∀ n, toggles n self = Ok (if Nat.even n then self else self').
Proof.
  intros Hcls Hstate. split; [done|].
  assert (Hback : ∀ a s, cls a = ToggledArtist_ s →
            s = "active"%string ∨ s = "inactive"%string →
            ∃ a', toggle a = Ok a' ∧ toggle a' = Ok a
              ∧ a' = set_cls (ToggledArtist_
                       (if String.eqb s "active" then "inactive" else "active")) a).
  { intros [i g l d c] s Ha Hs. simpl in Ha. subst c.
      destruct Hs as [-> | ->]; (eexists; split; [reflexivity|done]). }
  destruct (Hback self state Hcls Hstate) as (self' & Ht & Ht' & ->).
  eexists. split; [exact Ht|]. split; [done|]. split; [|split; [exact Ht'|]].
  - intros Hd f. unfold isActive. simpl. rewrite Hcls, Hd.
    by destruct Hstate as [-> | ->].
  - intros n. induction (lt_wf n) as [n _ IH].
    destruct n as [|[|n]]; simpl.
    + done.
    + by rewrite Ht.
    + rewrite Ht, Ht'. rewrite IH by lia. done.
Qed.

Lemma ToggledArtist_toggle_flips_witness :
  cls sample_toggled = ToggledArtist_ "inactive"
  ∧ toggles 3 sample_toggled
    = Ok (set_cls (ToggledArtist_ "active") sample_toggled).
Proof.
  split; [reflexivity|].
  destruct (ToggledArtist_toggle_flips sample_toggled "inactive" eq_refl
              (or_intror eq_refl)) as (_ & self' & _ & -> & _ & _ & H).
  exact (H 3%nat).
Defined.

(** C8. Comparing an artist with an artist gives true exactly when the two
    ids are the same string, whatever else the two hold; comparing it with a
    value that has no attribute [id] raises [AttributeError]. *)
Theorem Artist_eq_by_id (a : artist) :
  (∀ b, __eq__ a (VArtist b) = Ok (bool_decide (id a = id b)))
  ∧ (∀ b a' b', id a = id a' → id b = id b' →
       __eq__ a (VArtist b) = __eq__ a' (VArtist b'))
  ∧ __eq__ a VNone = Raise AttributeError
  ∧ (∀ n, __eq__ a (VInt n) = Raise AttributeError)
  ∧ (∀ s, __eq__ a (VStr s) = Raise AttributeError)
  ∧ (∀ attrs : gmap string string, attrs !! "id"%string = None →
       __eq__ a (VObject attrs) = Raise AttributeError).
Proof.
  repeat split; try done.
  - intros b. unfold __eq__. simpl. f_equal.
    destruct (String.eqb_spec (id a) (id b)) as [H|H].
    + by rewrite bool_decide_eq_true_2.
    + by rewrite bool_decide_eq_false_2.
  - intros b a' b' Ha Hb. unfold __eq__. simpl. by rewrite Ha, Hb.
  - intros attrs H. unfold __eq__. simpl. by rewrite H.
Qed.

Lemma Artist_eq_by_id_witness :
  ({[ "name"%string := "x"%string ]} : gmap string string) !! "id"%string = None
  ∧ __eq__ sample_plain (VObject {[ "name"%string := "x"%string ]})
    = Raise AttributeError.
Proof.
  split; [reflexivity|].
  destruct (Artist_eq_by_id sample_plain) as (_ & _ & _ & _ & _ & H).
  apply H. reflexivity.
Defined.

(** * The monad *)

Lemma bind_unfold {A B} (m : M A) (f : A → M B) (w : world) :
  (m ≫= f) w = match m w with
               | (Ok a, w') => f a w'
               | (Raise e, w') => (Raise e, w')
               end.
Proof. reflexivity. Qed.

Section preserves.
Context (R : relation world) `{!PreOrder R}.

Lemma preserves_ret {A} (a : A) : preserves R (mret a : M A).
Proof. intros w. simpl. reflexivity. Qed.

Lemma preserves_gets {A} (f : world → A) : preserves R (gets f).
Proof. intros w. simpl. reflexivity. Qed.

Lemma preserves_lift {A} (x : result A) : preserves R (lift x).
Proof. intros w. simpl. reflexivity. Qed.

Lemma preserves_bind {A B} (m : M A) (f : A → M B) :
  preserves R m →
  (∀ w a w', m w = (Ok a, w') → R w' (f a w').2) →
  preserves R (m ≫= f).
Proof.
  intros Hm Hf w. rewrite bind_unfold. specialize (Hm w).
  destruct (m w) as [[a|e] w'] eqn:E; simpl in *; [|done].
  etrans; [exact Hm|]. by eapply Hf.
Qed.

Lemma preserves_bind_all {A B} (m : M A) (f : A → M B) :
  preserves R m → (∀ a, preserves R (f a)) → preserves R (m ≫= f).
Proof. intros Hm Hf. apply preserves_bind; [done|]. intros. apply Hf. Qed.

End preserves.

(** * How objects and worlds evolve *)

Global Instance cls_le_preorder : PreOrder cls_le.
Proof.
  split.
  - by intros [].
  - intros [] [] []; simpl; try done; intuition congruence.
Qed.

Global Instance artist_le_preorder : PreOrder artist_le.
Proof.
  split.
  - intros a. by split.
  - intros a b c [] []. split; try congruence; [auto | by etrans].
Qed.

Global Instance world_le_preorder : PreOrder world_le.
Proof.
  split.
  - intros w. split; [|done..]. intros r a H. exists a. by split.
  - intros w1 w2 w3 [H1 ? ?] [H2 ? ?]. split; [|lia|by etrans].
    intros r a Ha. destruct (H1 r a Ha) as (a' & Ha' & ?).
    destruct (H2 r a' Ha') as (a'' & ? & ?). exists a''. split; [done|].
    by etrans.
Qed.

Global Instance same_frame_preorder : PreOrder same_frame.
Proof.
  unfold same_frame. split.
  - by intros w.
  - intros w1 w2 w3. intuition congruence.
Qed.

Global Instance step_le_preorder : PreOrder step_le.
Proof.
  unfold step_le. split.
  - by intros w.
  - intros w1 w2 w3 [] []. split; by etrans.
Qed.

Lemma step_le_world_le (w w' : world) : step_le w w' → world_le w w'.
Proof. by intros []. Qed.

Lemma obj_lookup (w : world) (r : loc) (a : artist) :
  objects w !! r = Some a → obj w r = a.
Proof. intros H. unfold obj. by apply lookup_total_correct. Qed.

Lemma artist_le_draw (a : artist) : artist_le a (draw a).1.
Proof. unfold draw. destruct a as [? ? ? ? []]; by split. Qed.

Lemma artist_le_deactivate (a : artist) : artist_le a (deactivate a).
Proof. destruct a as [? ? ? ? c]. by split. Qed.

Lemma artist_le_toggle (a a' : artist) : toggle a = Ok a' → artist_le a a'.
Proof.
  unfold toggle. destruct a as [? ? ? ? []]; simpl; intros [= <-]; by split.
Qed.

Lemma artist_le_visit (fc : Z) (a : artist) : artist_le a (visit fc a).
Proof. unfold visit. destruct (isActive a fc); [apply artist_le_draw|done]. Qed.

Section step_le.
Local Abbreviation keeps := (preserves step_le).

Lemma store_step_le (w : world) (r : loc) (a' : artist) :
  (∀ a, objects w !! r = Some a → artist_le a a') →
  step_le w (store r a' w).2.
Proof.
  intros Ha. split; [split|done]; simpl; [|lia|done].
  intros r' a Hr'. destruct (decide (r' = r)) as [->|Hne].
  - exists a'. rewrite lookup_insert_eq. eauto.
  - exists a. by rewrite lookup_insert_ne.
Qed.

Lemma emit_keeps (cs : list call) : keeps (emit cs).
Proof.
  intros w. split; [split|done]; simpl; [|lia|by apply prefix_app_r].
  intros r a ?. by exists a.
Qed.

Lemma set_artists_keeps (l : list loc) : keeps (set_artists l).
Proof.
  intros w. split; [split|done]; simpl; [|lia|done].
  intros r a ?. by exists a.
Qed.

Lemma artist_draw_keeps (r : loc) : keeps (artist_draw r).
Proof.
  intros w.
  trans (store r (draw (obj w r)).1 w).2; [|apply emit_keeps].
  apply store_step_le. intros a ->%obj_lookup. apply artist_le_draw.
Qed.

Lemma artist_deactivate_keeps (r : loc) : keeps (artist_deactivate r).
Proof.
  intros w. apply (store_step_le w r (deactivate (obj w r))).
  intros a ->%obj_lookup. apply artist_le_deactivate.
Qed.

Lemma artist_toggle_keeps (r : loc) : keeps (artist_toggle r).
Proof.
  intros w. unfold artist_toggle. rewrite bind_unfold. simpl.
  rewrite bind_unfold. unfold lift.
  destruct (toggle (obj w r)) as [a'|e] eqn:E; [|done].
  apply store_step_le. intros a <-%obj_lookup. by apply artist_le_toggle.
Qed.

Lemma new_keeps (new_id : string) (f : factory) (c : ctor) :
  keeps (new new_id f c).
Proof.
  intros w.
  apply (store_step_le w (fresh (dom (objects w))) (init new_id f c)).
  intros a Ha.
  destruct (is_fresh (dom (objects w))). apply elem_of_dom. eauto.
Qed.
End step_le.

(** * One pass of [Canvas.draw] *)

Lemma draw_calls (a : artist) : (draw a).2 = [invoke (artist_factory a); plt_draw].
Proof. unfold draw. by destruct (cls a). Qed.

Lemma isActive_draw (a : artist) (f : Z) : isActive (draw a).1 f = isActive a f.
Proof. unfold draw, isActive. by destruct a as [? ? ? ? []]. Qed.

Lemma draw_draw (a : artist) : (draw (draw a).1).1 = (draw a).1.
Proof. unfold draw. by destruct a as [? ? ? ? []]. Qed.

Lemma isActive_visit (fc : Z) (a : artist) (f : Z) :
  isActive (visit fc a) f = isActive a f.
Proof. unfold visit. destruct (isActive a fc); [apply isActive_draw|done]. Qed.

Lemma visit_visit (fc : Z) (a : artist) : visit fc (visit fc a) = visit fc a.
Proof.
  unfold visit at 1. rewrite isActive_visit. unfold visit.
  destruct (isActive a fc) eqn:E; [apply draw_draw|done].
Qed.

Lemma artist_factory_visit (fc : Z) (a : artist) :
  artist_factory (visit fc a) = artist_factory a.
Proof. symmetry. apply artist_le_visit. Qed.

Lemma id_visit (fc : Z) (a : artist) : id (visit fc a) = id a.
Proof. symmetry. apply artist_le_visit. Qed.

Lemma drawn_calls_ext (w w' : world) (l : list loc) :
  canvas w' = canvas w →
  (∀ r, visit (frame_counter (canvas w)) (obj w' r)
        = visit (frame_counter (canvas w)) (obj w r)) →
  drawn_calls w' l = drawn_calls w l.
Proof.
  intros Hc Hv. unfold drawn_calls. rewrite Hc.
  set (fc := frame_counter (canvas w)) in *.
  rewrite (list_filter_iff (λ r0, isActive (obj w' r0) fc = true)
             (λ r0, isActive (obj w r0) fc = true)).
  2:{ intros r'. by rewrite <- (isActive_visit fc (obj w' r')), Hv,
        isActive_visit. }
  apply flat_map_ext. intros r'.
  by rewrite <- (artist_factory_visit fc (obj w' r')), Hv,
    artist_factory_visit.
Qed.

Lemma drawn_calls_cons (w : world) (r : loc) (l : list loc) :
  drawn_calls w (r :: l) = drawn_calls w [r] ++ drawn_calls w l.
Proof.
  unfold drawn_calls. rewrite (filter_cons _ r l), filter_cons, filter_nil.
  by destruct (decide _).
Qed.

(** The world after the body of the first loop has run for [r]. *)
Lemma draw_loop_cons (r : loc) (l : list loc) (up : list loc) (w : world) :
  draw_loop (r :: l) up w
  = let fc := frame_counter (canvas w) in
    let w1 := mkWorld (<[r := visit fc (obj w r)]> (objects w)) (canvas w)
                (calls w ++ drawn_calls w [r]) in
    draw_loop l (if isDone (visit fc (obj w r)) fc then up ++ [r] else up)
      (if isActive (obj w r) fc then w1 else w).
Proof.
  simpl. unfold mbind, M_bind, gets, drawn_calls, visit; simpl.
  rewrite filter_cons, filter_nil.
  destruct (isActive (obj w r) (frame_counter (canvas w))) eqn:E.
  - rewrite decide_True by done. simpl. unfold obj at 1. simpl.
    rewrite lookup_total_insert_eq, draw_calls. done.
  - done.
Qed.

Lemma draw_loop_spec (l : list loc) (up : list loc) (w : world) :
  let fc := frame_counter (canvas w) in
  ∃ w', draw_loop l up w
        = (Ok (up ++ filter (λ r, isDone (visit fc (obj w r)) fc = true) l), w')
      ∧ canvas w' = canvas w
      ∧ calls w' = calls w ++ drawn_calls w l
      ∧ ∀ r, obj w' r = if bool_decide (r ∈ l) then visit fc (obj w r)
                        else obj w r.
Proof.
  revert up w. induction l as [|r l IH]; intros up w fc.
  { exists w. simpl. rewrite !app_nil_r. done. }
  rewrite draw_loop_cons. cbv zeta. fold fc.
  set (w1 := if isActive (obj w r) fc then mkWorld _ _ _ else w).
  assert (Hc : canvas w1 = canvas w) by (subst w1; by destruct (isActive _ _)).
  assert (Hcalls : calls w1 = calls w ++ drawn_calls w [r]).
  { subst w1. unfold drawn_calls. rewrite filter_cons, filter_nil. fold fc.
    destruct (isActive (obj w r) fc) eqn:E.
    - by rewrite decide_True.
    - rewrite decide_False by done. simpl. by rewrite app_nil_r. }
  assert (Hobj : ∀ r', obj w1 r' = if bool_decide (r' = r) then visit fc (obj w r)
                                   else obj w r').
  { intros r'. subst w1. case_bool_decide as Hr.
    - subst r'. destruct (isActive (obj w r) fc) eqn:E.
      + unfold obj at 1. simpl. by rewrite lookup_total_insert_eq.
      + unfold visit. by rewrite E.
    - destruct (isActive (obj w r) fc) eqn:E; [|done].
      unfold obj at 1. simpl. by rewrite lookup_total_insert_ne. }
  assert (Hvisit : ∀ r', visit fc (obj w1 r') = visit fc (obj w r')).
  { intros r'. rewrite Hobj. case_bool_decide; [|done].
    subst r'. apply visit_visit. }
  destruct (IH (if isDone (visit fc (obj w r)) fc then up ++ [r] else up) w1)
    as (w' & Hrun & Hc' & Hcalls' & Hobj').
  rewrite Hc in Hrun, Hobj'. fold fc in Hrun, Hobj'.
  rewrite (drawn_calls_ext w w1) in Hcalls' by done.
  exists w'. split; [|split; [congruence|split]].
  - rewrite Hrun. f_equal. f_equal. rewrite filter_cons.
    rewrite (list_filter_iff _ (λ r0, isDone (visit fc (obj w r0)) fc = true))
      by (intros r'; by rewrite Hvisit).
    destruct (isDone (visit fc (obj w r)) fc) eqn:E.
    + rewrite decide_True by done. by rewrite <- app_assoc.
    + rewrite decide_False by done. done.
  - by rewrite Hcalls', Hcalls, <- app_assoc, <- drawn_calls_cons.
  - intros r'. rewrite Hobj', Hvisit, Hobj.
    destruct (decide (r' = r)) as [->|Hne].
    + rewrite (bool_decide_eq_true_2 (r = r)) by done.
      rewrite (bool_decide_eq_true_2 (r ∈ r :: l)) by left.
      by destruct (bool_decide (r ∈ l)).
    + rewrite (bool_decide_eq_false_2 (r' = r)) by done.
      destruct (decide (r' ∈ l)) as [Hin|Hin].
      * rewrite !bool_decide_eq_true_2; [done|by right|done].
      * rewrite !bool_decide_eq_false_2; [done| |done].
        by intros [?|?]%elem_of_cons.
Qed.

(** * Removal *)

(** When no element before [x] has the id of [x], it is [x] that goes. *)
Lemma list_remove_first (h : gmap loc artist) (x : loc) (p l : list loc) :
  (∀ z, z ∈ p → id (h !!! z) ≠ id (h !!! x)) →
  list_remove h x (p ++ x :: l) = Ok (p ++ l).
Proof.
  induction p as [|y p IH]; intros Hp; simpl.
  - by rewrite bool_decide_eq_true_2.
  - assert (Hy : id (h !!! y) ≠ id (h !!! x)) by (apply Hp; left).
    rewrite bool_decide_eq_false_2 by congruence.
    apply String.eqb_neq in Hy as ->.
    rewrite IH; [done|]. intros z Hz. apply Hp. by right.
Qed.

(** When some element has the id of [x], the first such element goes. *)
Lemma list_remove_found (h : gmap loc artist) (x : loc) (l : list loc) :
  id (h !!! x) ∈ (λ r, id (h !!! r)) <$> l →
  ∃ p y l', l = p ++ y :: l'
    ∧ id (h !!! y) = id (h !!! x)
    ∧ (∀ z, z ∈ p → id (h !!! z) ≠ id (h !!! x))
    ∧ list_remove h x l = Ok (p ++ l').
Proof.
  induction l as [|y l IH]; simpl; intros Hin.
  { by apply elem_of_nil in Hin. }
  destruct (String.eqb_spec (id (h !!! y)) (id (h !!! x))) as [Heq|Hne].
  - exists [], y, l. split; [done|]. split; [done|].
    split; [by intros z ?%elem_of_nil|]. simpl.
    by case_bool_decide.
  - apply elem_of_cons in Hin as [Hin|Hin]; [congruence|].
    destruct (IH Hin) as (p & y' & l' & -> & Hy' & Hp & Hrm).
    exists (y :: p), y', l'. split; [done|]. split; [done|]. split.
    + intros z [->|?]%elem_of_cons; auto.
    + rewrite bool_decide_eq_false_2 by congruence.
      by rewrite Hrm.
Qed.

Lemma remove_loop_cons (x : loc) (rest : list loc) (w : world) :
  remove_loop (x :: rest) w
  = match list_remove (objects w) x (artists (canvas w)) with
    | Ok l' => remove_loop rest (set_artists l' w).2
    | Raise e => (Raise e, w)
    end.
Proof.
  simpl. unfold mbind, M_bind, gets, lift. simpl.
  by destruct (list_remove _ _ _).
Qed.

Lemma same_but_artists_set (w : world) (l : list loc) :
  same_but_artists w (set_artists l w).2.
Proof. by repeat split. Qed.

Lemma same_but_artists_trans (w1 w2 w3 : world) :
  same_but_artists w1 w2 → same_but_artists w2 w3 → same_but_artists w1 w3.
Proof.
  intros (? & ? & ?) (? & ? & ?). split; [congruence|].
  split; [congruence|]. by etrans.
Qed.

Lemma same_but_artists_refl (w : world) : same_but_artists w w.
Proof. by repeat split. Qed.

(** The second loop never raises when every marked artist has its own
    id-equal partner in the list, as is the case for marks taken from the
    list; it changes the list only, by deletions. *)
Lemma remove_loop_ok (up : list loc) (w : world) :
  (λ r, id (obj w r)) <$> up ⊆+ (λ r, id (obj w r)) <$> artists (canvas w) →
  ∃ w', remove_loop up w = (Ok tt, w')
      ∧ same_but_artists w w'
      ∧ artists (canvas w') `sublist_of` artists (canvas w).
Proof.
  revert w. induction up as [|x up IH]; intros w Hsub.
  { exists w. split; [done|]. split; [apply same_but_artists_refl|done]. }
  rewrite remove_loop_cons. rewrite fmap_cons in Hsub.
  destruct (list_remove_found (objects w) x (artists (canvas w)))
    as (p & y & l' & Hl & Hy & _ & ->).
  { eapply elem_of_submseteq; [|exact Hsub]. left. }
  destruct (IH (set_artists (p ++ l') w).2) as (w' & Hrun & Hsame & Hsl).
  { change ((λ r, id (obj w r)) <$> up ⊆+ (λ r, id (obj w r)) <$> (p ++ l')).
    apply (submseteq_app_inv_l _ _ [id (obj w x)]). simpl.
    etrans; [exact Hsub|]. rewrite Hl, !fmap_app, fmap_cons.
    fold (obj w y) (obj w x) in Hy. rewrite Hy.
    by rewrite <- Permutation_middle. }
  exists w'. split; [done|]. split.
  - eapply same_but_artists_trans; [apply same_but_artists_set|done].
  - etrans; [exact Hsl|]. simpl. rewrite Hl.
    apply sublist_app; [done|]. by apply sublist_cons.
Qed.

Lemma elem_of_app_cons_r (r x : loc) (p l : list loc) :
  r ∈ p ++ l → r ∈ p ++ x :: l.
Proof. rewrite !elem_of_app, elem_of_cons. tauto. Qed.

(** With distinct ids, the second loop run on the artists of [l] for which
    [d] holds leaves those for which it does not, in their order. *)
Lemma remove_loop_filter (d : loc → bool) (l p : list loc) (w : world) :
  artists (canvas w) = p ++ l →
  (∀ r, r ∈ p → d r = false) →
  (∀ r1 r2, r1 ∈ p ++ l → r2 ∈ p ++ l →
            id (obj w r1) = id (obj w r2) → r1 = r2) →
  ∃ w', remove_loop (filter (λ r, d r = true) l) w = (Ok tt, w')
      ∧ same_but_artists w w'
      ∧ artists (canvas w') = p ++ filter (λ r, d r = false) l.
Proof.
  revert p w. induction l as [|x l IH]; intros p w Hl Hp Hinj.
  { exists w. split; [done|]. split; [apply same_but_artists_refl|done]. }
  rewrite !(filter_cons _ x l). destruct (d x) eqn:Ex.
  - rewrite decide_True by done. rewrite decide_False by done.
    rewrite remove_loop_cons, Hl, list_remove_first.
    2:{ intros z Hz Hid.
        apply Hinj in Hid;
          [|apply elem_of_app; by left|apply elem_of_app; right; left].
        subst z. apply Hp in Hz. congruence. }
    destruct (IH p (set_artists (p ++ l) w).2) as (w' & Hrun & Hsame & Hres);
      [done|done| |].
    { intros r1 r2 ? ?. apply Hinj; by apply elem_of_app_cons_r. }
    exists w'. split; [done|]. split; [|done].
    eapply same_but_artists_trans; [apply same_but_artists_set|done].
  - rewrite decide_False by done. rewrite decide_True by done.
    destruct (IH (p ++ [x]) w) as (w' & Hrun & Hsame & Hres).
    + by rewrite <- app_assoc.
    + intros r [?|Hr]%elem_of_app; [auto|]. by apply list_elem_of_singleton in Hr as ->.
    + rewrite <- app_assoc. apply Hinj.
    + exists w'. split; [done|]. split; [done|]. by rewrite Hres, <- app_assoc.
Qed.

(** * Every call keeps what is there *)

Ltac keeps_step :=
  first
    [ apply emit_keeps
    | apply set_artists_keeps
    | apply artist_draw_keeps
    | apply artist_deactivate_keeps
    | apply artist_toggle_keeps
    | apply new_keeps
    | apply preserves_gets, _
    | apply preserves_ret, _
    | apply preserves_lift, _
    | match goal with
      | |- preserves _ (if ?b then _ else _) => destruct b
      | |- preserves _ (_ ≫= _) =>
          apply preserves_bind_all; [apply _| |intros ?]
      end ].

Lemma draw_loop_keeps (l up : list loc) : preserves step_le (draw_loop l up).
Proof.
  revert up. induction l as [|r l IH]; intros up; simpl.
  - apply preserves_ret, _.
  - repeat keeps_step; apply IH.
Qed.

Lemma remove_loop_keeps (up : list loc) : preserves step_le (remove_loop up).
Proof.
  induction up as [|r up IH]; simpl.
  - apply preserves_ret, _.
  - repeat keeps_step; apply IH.
Qed.

Lemma Canvas_draw_keeps : preserves step_le Canvas_draw.
Proof.
  unfold Canvas_draw. repeat keeps_step;
    [apply draw_loop_keeps|apply remove_loop_keeps].
Qed.

Lemma addArtist_keeps (r : loc) : preserves step_le (addArtist r).
Proof. unfold addArtist. repeat keeps_step. Qed.

Lemma addArtistFactory_keeps (new_id : string) (f : factory) (c : ctor) :
  preserves step_le (addArtistFactory new_id f c).
Proof. unfold addArtistFactory. repeat keeps_step. Qed.

Lemma resetAxes_keeps : preserves step_le resetAxes.
Proof. unfold resetAxes. repeat keeps_step. Qed.

Lemma show_keeps : preserves step_le show.
Proof. unfold show. repeat keeps_step. apply Canvas_draw_keeps. Qed.

Lemma exec_keeps (o : op) : is_save o = false → preserves step_le (exec o).
Proof.
  destruct o; simpl; intros Hs; try done; repeat keeps_step;
    auto using Canvas_draw_keeps, addArtist_keeps, addArtistFactory_keeps,
      resetAxes_keeps, show_keeps.
Qed.

(** * [Canvas.draw] as a whole *)

Lemma ids_distinct_inj (w : world) :
  ids_distinct w ↔
  ∀ r1 r2, r1 ∈ artists (canvas w) → r2 ∈ artists (canvas w) →
           id (obj w r1) = id (obj w r2) → r1 = r2.
Proof.
  unfold ids_distinct. rewrite Forall_forall. split.
  - intros H r1 r2 H1 H2. specialize (H r1 H1).
    rewrite Forall_forall in H. by apply H.
  - intros H r1 H1. apply Forall_forall. intros r2 H2. by apply H.
Qed.

Lemma NoDup_ids_distinct (w : world) :
  NoDup ((λ r, id (obj w r)) <$> artists (canvas w)) → ids_distinct w.
Proof.
  intros Hnd. apply ids_distinct_inj. intros r1 r2 H1 H2 Hid.
  apply list_elem_of_lookup in H1 as [i Hi], H2 as [j Hj].
  assert (i = j) as ->; [|congruence].
  eapply NoDup_lookup; [exact Hnd| |].
  - rewrite list_lookup_fmap, Hi. done.
  - rewrite list_lookup_fmap, Hj. simpl. by rewrite Hid.
Qed.

Lemma Canvas_draw_spec (w : world) :
  let fc := frame_counter (canvas w) in
  let l := artists (canvas w) in
  let marked := filter (λ r, isDone (visit fc (obj w r)) fc = true) l in
  ∃ w1 w',
    draw_loop l [] w = (Ok marked, w1)
    ∧ remove_loop marked w1 = (Ok tt, w')
    ∧ Canvas_draw w = (Ok tt, w')
    ∧ canvas w1 = canvas w
    ∧ calls w1 = calls w ++ drawn_calls w l
    ∧ (∀ r, obj w1 r = if bool_decide (r ∈ l) then visit fc (obj w r)
                       else obj w r)
    ∧ same_but_artists w1 w'
    ∧ artists (canvas w') `sublist_of` l
    ∧ (ids_distinct w →
       artists (canvas w')
       = filter (λ r, isDone (visit fc (obj w r)) fc = false) l).
Proof.
  intros fc l marked.
  destruct (draw_loop_spec l [] w) as (w1 & Hloop & Hc & Hcalls & Hobj).
  fold fc in Hloop, Hobj. simpl in Hloop. fold marked in Hloop.
  assert (Hid : ∀ r, id (obj w1 r) = id (obj w r)).
  { intros r. rewrite Hobj. destruct (bool_decide _); [apply id_visit|done]. }
  destruct (remove_loop_ok marked w1) as (w' & Hrm & Hsame & Hsub).
  { rewrite Hc. fold l. apply sublist_submseteq, fmap_sublist.
    apply sublist_filter. }
  rewrite Hc in Hsub. fold l in Hsub.
  exists w1, w'. split; [done|]. split; [done|]. split.
  { unfold Canvas_draw. rewrite bind_unfold. simpl. fold l.
    by rewrite bind_unfold, Hloop. }
  do 5 (split; [done|]).
  intros Hd. pose proof (proj1 (ids_distinct_inj w) Hd) as Hinj. clear Hd.
  destruct (remove_loop_filter (λ r, isDone (visit fc (obj w r)) fc) l [] w1)
    as (w'' & Hrm' & _ & Hres).
  - by rewrite Hc.
  - by intros r ?%elem_of_nil.
  - simpl. intros r1 r2 H1 H2. rewrite !Hid. by apply Hinj.
  - fold marked in Hrm'. rewrite Hrm in Hrm'. by injection Hrm' as <-.
Qed.

Lemma Canvas_draw_ok (w : world) :
  ∃ w', Canvas_draw w = (Ok tt, w') ∧ step_le w w'.
Proof.
  destruct (Canvas_draw_spec w) as (w1 & w' & _ & _ & H & _).
  exists w'. split; [done|].
  pose proof (Canvas_draw_keeps w) as Hk. by rewrite H in Hk.
Qed.

(** * [save] and the frame counter *)

Lemma save_unfold (folder fname : string) (savefig : result unit)
    (w w1 : world) :
  Canvas_draw w = (Ok tt, w1) →
  save folder fname savefig w
  = let log := calls w1
               ++ [fig_savefig (folder +:+ "/" +:+ fname +:+ "_"
                                +:+ pretty (frame_counter (canvas w1)))
                     savefig] in
    match savefig with
    | Ok _ =>
        (Ok tt,
         mkWorld (objects w1)
           (mkCanvas (frame_counter (canvas w1) + 1) (xlims (canvas w1))
              (ylims (canvas w1)) (artists (canvas w1)))
           (log ++ [ax_clear; ax_set_xlim (xlims (canvas w1));
                    ax_set_ylim (ylims (canvas w1))]))
    | Raise e => (Raise e, mkWorld (objects w1) (canvas w1) log)
    end.
Proof.
  intros H. unfold save. rewrite bind_unfold, H. by destruct savefig.
Qed.

(** A [save] whose [savefig] raises stays on the frame. *)
Lemma save_raise_keeps (folder fname : string) (e : exn) :
  preserves step_le (save folder fname (Raise e)).
Proof.
  intros w. destruct (Canvas_draw_ok w) as (w1 & Hdraw & [Hle Hfr]).
  rewrite (save_unfold _ _ _ _ _ Hdraw). simpl. split.
  - etrans; [exact Hle|]. split; simpl.
    + intros r a ?. by exists a.
    + lia.
    + by apply prefix_app_r.
  - exact Hfr.
Qed.

Lemma exec_stays (o : op) : save_returns o = false → preserves step_le (exec o).
Proof.
  destruct o as [| | | | | | | | |folder fname [u|e]];
    try (intros _; by apply exec_keeps); [done|].
  intros _. apply save_raise_keeps.
Qed.

Lemma save_le (folder fname : string) (savefig : result unit) :
  preserves world_le (save folder fname savefig).
Proof.
  destruct savefig as [u|e];
    [|intros w; apply step_le_world_le, save_raise_keeps].
  intros w. destruct (Canvas_draw_ok w) as (w1 & Hdraw & [Hle Hfr]).
  rewrite (save_unfold _ _ _ _ _ Hdraw). simpl.
  etrans; [exact Hle|]. split; simpl.
  - intros r a ?. by exists a.
  - lia.
  - rewrite <- app_assoc. by apply prefix_app_r.
Qed.

Lemma exec_le (o : op) : preserves world_le (exec o).
Proof.
  destruct (is_save o) eqn:E.
  - destruct o; try done. apply save_le.
  - intros w. by apply step_le_world_le, exec_keeps.
Qed.

Lemma run_le (os : list op) (w : world) : world_le w (run os w).
Proof.
  revert w. induction os as [|o os IH]; intros w; simpl; [done|].
  etrans; [apply exec_le|apply IH].
Qed.


Lemma filter_ext_in (P1 P2 : loc → Prop) `{!∀ x, Decision (P1 x)}
    `{!∀ x, Decision (P2 x)} (l : list loc) :
  (∀ x, x ∈ l → P1 x ↔ P2 x) → filter P1 l = filter P2 l.
Proof.
  induction l as [|x l IH]; intros Hext; [done|].
  rewrite !filter_cons, IH by (intros; apply Hext; by right).
  destruct (decide (P1 x)) as [H1|H1], (decide (P2 x)) as [H2|H2];
    try done; apply Hext in H1 || apply Hext in H2; try done; left.
Qed.

(** * The claims about the canvas *)

(** C1 (as amended).  One call of [Canvas.draw] never raises.  Its first loop
    goes through the managed artists in their order and leaves the list as it
    is; it calls [draw] on exactly those that are active at the current
    frame, in that order, and marks exactly those that are done at the
    current frame once a due draw has happened.  Only then are the marks
    worked off, each by [list.remove], which deletes the first artist with
    the id of the marked one; when distinct managed artists have distinct
    ids, what is left are the artists that were not marked.  A one-time
    artist due at the current frame that is not deactivated is drawn and
    marked, and, with distinct ids, no longer managed after the call. *)
Theorem Canvas_draw_pass (w : world) :
  let fc := frame_counter (canvas w) in
  let l := artists (canvas w) in
  ∃ marked w1 w',
    draw_loop l [] w = (Ok marked, w1)
    ∧ artists (canvas w1) = l
    ∧ calls w1 = calls w ++ drawn_calls w l
    ∧ marked = filter (λ r, isDone (visit fc (obj w r)) fc = true) l
    ∧ (∀ r, r ∈ l → obj w1 r = visit fc (obj w r))
    ∧ remove_loop marked w1 = (Ok tt, w')
    ∧ Canvas_draw w = (Ok tt, w')
    ∧ same_but_artists w1 w'
    ∧ (∀ (h : gmap loc artist) (x : loc) (l0 : list loc),
         id (h !!! x) ∈ (λ r, id (h !!! r)) <$> l0 →
         ∃ p y l', l0 = p ++ y :: l'
           ∧ id (h !!! y) = id (h !!! x)
           ∧ (∀ z, z ∈ p → id (h !!! z) ≠ id (h !!! x))
           ∧ list_remove h x l0 = Ok (p ++ l'))
    ∧ (ids_distinct w →
       artists (canvas w')
       = filter (λ r, isDone (visit fc (obj w r)) fc = false) l)
    ∧ ∀ r drawn,
        r ∈ l → cls (obj w r) = OneTimeArtist_ drawn fc →
        deactivated (obj w r) = false →
        invoke (artist_factory (obj w r)) ∈ drawn_calls w l
        ∧ r ∈ marked
        ∧ (ids_distinct w → r ∉ artists (canvas w')).
Proof.
  intros fc l.
  destruct (Canvas_draw_spec w)
    as (w1 & w' & Hloop & Hrm & Hdraw & Hc & Hcalls & Hobj & Hsame & _ & Hres).
  fold fc l in Hloop, Hrm, Hcalls, Hobj, Hres.
  eexists _, w1, w'. split; [exact Hloop|]. split; [by rewrite Hc|].
  do 2 (split; [done|]). split.
  { intros r Hr. by rewrite Hobj, bool_decide_eq_true_2. }
  do 3 (split; [done|]). split; [apply list_remove_found|]. split; [done|].
  intros r drawn Hr Hcls Hd.
  assert (Hact : isActive (obj w r) fc = true).
  { unfold isActive. by rewrite Hcls, Hd, Z.eqb_refl. }
  assert (Hdone : isDone (visit fc (obj w r)) fc = true).
  { unfold visit. rewrite Hact. unfold draw, isDone. by rewrite Hcls. }
  split; [|split].
  - unfold drawn_calls. apply list_elem_of_In, in_flat_map. exists r.
    split; [|by left]. apply list_elem_of_In, list_elem_of_filter. done.
  - by apply list_elem_of_filter.
  - intros Hids. rewrite (Hres Hids). intros [H _]%list_elem_of_filter.
    congruence.
Qed.

Lemma Canvas_draw_pass_witness :
  ids_distinct demo_world
  ∧ artists (canvas demo_world) = [0; 1; 2]%nat
  ∧ 2%nat ∉ artists (canvas (Canvas_draw demo_world).2).
Proof.
  split; [by apply (bool_decide_unpack _); vm_compute|].
  split; [by vm_compute|].
  destruct (Canvas_draw_pass demo_world)
    as (marked & w1 & w' & _ & _ & _ & _ & _ & _ & Hdraw & _ & _ & _ & H).
  rewrite Hdraw. simpl.
  apply (H 2%nat false).
  - by apply (bool_decide_unpack _); vm_compute.
  - by vm_compute.
  - by vm_compute.
  - by apply (bool_decide_unpack _); vm_compute.
Defined.

(** C1 as stated fails in two ways.  A one-time artist due at the current
    frame that has been deactivated is removed without being drawn; and when
    an artist earlier in the list has the same id, it is that artist that is
    removed, while the one-time artist is drawn and stays managed. *)
Lemma Canvas_draw_pass_counterexample :
  (artists (canvas deactivated_onetime_world) = [0%nat]
   ∧ frame_counter (canvas deactivated_onetime_world) = 1
   ∧ cls (obj deactivated_onetime_world 0%nat) = OneTimeArtist_ false 1
   ∧ deactivated (obj deactivated_onetime_world 0%nat) = true
   ∧ artist_factory (obj deactivated_onetime_world 0%nat) = "flash"%string
   ∧ calls (Canvas_draw deactivated_onetime_world).2
     = calls deactivated_onetime_world
   ∧ (invoke "flash" ∉ calls (Canvas_draw deactivated_onetime_world).2)
   ∧ artists (canvas (Canvas_draw deactivated_onetime_world).2) = [])
  ∧ (artists (canvas collision_world) = [0; 1]%nat
     ∧ frame_counter (canvas collision_world) = 1
     ∧ cls (obj collision_world 0%nat) = Artist_
     ∧ cls (obj collision_world 1%nat) = OneTimeArtist_ false 1
     ∧ deactivated (obj collision_world 1%nat) = false
     ∧ (draw_loop [0; 1]%nat [] collision_world).1 = Ok [1%nat]
     ∧ calls (Canvas_draw collision_world).2
       = calls collision_world
         ++ [invoke "diag"; plt_draw; invoke "flash"; plt_draw]
     ∧ artists (canvas (Canvas_draw collision_world).2) = [1%nat]
     ∧ (1%nat ∈ artists (canvas (Canvas_draw collision_world).2))
     ∧ (0%nat ∉ artists (canvas (Canvas_draw collision_world).2))).
Proof.
  split.
  - do 6 (split; [by vm_compute|]). split; [|by vm_compute].
    by apply (bool_decide_unpack _); vm_compute.
  - do 8 (split; [by vm_compute|]).
    split; by apply (bool_decide_unpack _); vm_compute.
Qed.

(** C9. When distinct managed artists have distinct ids, as they do when no
    two entries of the list have one id, one call of [Canvas.draw] marks
    exactly the managed artists that are done at the current frame in the
    pass, what it leaves are exactly the others, and these keep their order.
    Removal goes by id: [list.remove] deletes the first entry that has the
    id of its argument, and in a list of two artists with one id, of which
    the second is done, it is the first that is removed. *)
Theorem Canvas_draw_removes_done :
  (∀ w : world,
     NoDup ((λ r, id (obj w r)) <$> artists (canvas w)) → ids_distinct w)
  ∧ (∀ (h : gmap loc artist) (x : loc) (l : list loc),
       id (h !!! x) ∈ (λ r, id (h !!! r)) <$> l →
       ∃ p y l', l = p ++ y :: l'
         ∧ id (h !!! y) = id (h !!! x)
         ∧ (∀ z, z ∈ p → id (h !!! z) ≠ id (h !!! x))
         ∧ list_remove h x l = Ok (p ++ l'))
  ∧ (∀ w : world,
     ids_distinct w →
     let fc := frame_counter (canvas w) in
     let l := artists (canvas w) in
     ∃ marked w1 w',
       draw_loop l [] w = (Ok marked, w1)
       ∧ Canvas_draw w = (Ok tt, w')
       ∧ objects w' = objects w1
       ∧ (∀ r, r ∈ marked ↔ r ∈ l ∧ isDone (obj w1 r) fc = true)
       ∧ (∀ r, r ∈ artists (canvas w') ↔ r ∈ l ∧ isDone (obj w1 r) fc = false)
       ∧ artists (canvas w') = filter (λ r, isDone (obj w1 r) fc = false) l
       ∧ artists (canvas w') `sublist_of` l)
  ∧ (artists (canvas collision_world) = [0; 1]%nat
     ∧ id (obj collision_world 0%nat) = id (obj collision_world 1%nat)
     ∧ isDone (obj (Canvas_draw collision_world).2 0%nat) 1 = false
     ∧ isDone (obj (Canvas_draw collision_world).2 1%nat) 1 = true
     ∧ artists (canvas (Canvas_draw collision_world).2) = [1%nat]).
Proof.
  split; [apply NoDup_ids_distinct|]. split; [apply list_remove_found|].
  split; [|by vm_compute].
  intros w Hids fc l.
  destruct (Canvas_draw_spec w)
    as (w1 & w' & Hloop & Hrm & Hdraw & Hc & Hcalls & Hobj & Hsame & Hsub & Hres).
  fold fc l in Hloop, Hrm, Hcalls, Hobj, Hres, Hsub.
  specialize (Hres Hids).
  assert (Hin : ∀ r, r ∈ l → obj w1 r = visit fc (obj w r)).
  { intros r Hr. by rewrite Hobj, bool_decide_eq_true_2. }
  assert (Hfil : ∀ b, filter (λ r, isDone (visit fc (obj w r)) fc = b) l
                      = filter (λ r, isDone (obj w1 r) fc = b) l).
  { intros b. apply filter_ext_in. intros r Hr. by rewrite Hin. }
  eexists _, w1, w'. split; [exact Hloop|]. split; [done|].
  split; [apply Hsame|]. rewrite Hres, !Hfil.
  split; [|split; [|split; [done|apply sublist_filter]]].
  - intros r. rewrite list_elem_of_filter. tauto.
  - intros r. rewrite list_elem_of_filter. tauto.
Qed.

Lemma Canvas_draw_removes_done_witness :
  ids_distinct demo_world
  ∧ artists (canvas (Canvas_draw demo_world).2) `sublist_of` [0; 1; 2]%nat.
Proof.
  assert (H : ids_distinct demo_world)
    by (by apply (bool_decide_unpack _); vm_compute).
  split; [exact H|].
  destruct Canvas_draw_removes_done as (_ & _ & Hthm & _).
  destruct (Hthm demo_world H)
    as (marked & w1 & w' & _ & Hdraw & _ & _ & _ & _ & Hsub).
  rewrite Hdraw. exact Hsub.
Defined.

(** * Claims about whole programs *)

Lemma run_object (os : list op) (w : world) (r : loc) (a : artist) :
  objects w !! r = Some a →
  ∃ a', objects (run os w) !! r = Some a' ∧ obj (run os w) r = a'
        ∧ artist_le a a'.
Proof.
  intros Ha. destruct (le_objects _ _ (run_le os w) r a Ha) as (a' & Ha' & Hle).
  exists a'. split; [done|]. split; [by apply obj_lookup|done].
Qed.

(** C3. Once [deactivate] has been called on an artist, of whatever class,
    then after any further calls into the module, by the caller or by the
    canvas, the artist is deactivated, active at no frame and done at every
    frame; no single call resets the flag. *)
Theorem deactivate_permanent (w : world) (r : loc) (a : artist) :
  objects w !! r = Some a →
  (∀ (os : list op) (f : Z),
     let w' := run os (artist_deactivate r w).2 in
     deactivated (obj w' r) = true
     ∧ isActive (obj w' r) f = false
     ∧ isDone (obj w' r) f = true)
  ∧ (∀ o : op,
       deactivated a = true → deactivated (obj (exec o w).2 r) = true).
Proof.
  intros Ha. split.
  - intros os f w'.
    assert (H0 : objects (artist_deactivate r w).2 !! r = Some (deactivate a)).
    { simpl. rewrite lookup_insert_eq. by rewrite (obj_lookup _ _ _ Ha). }
    destruct (run_object os _ r _ H0) as (a' & _ & Hobj & Hle).
    fold w' in Hobj. rewrite Hobj.
    assert (Hd : deactivated a' = true) by by apply Hle.
    auto using isActive_deactivated, isDone_deactivated.
  - intros o Hd.
    destruct (le_objects _ _ (exec_le o w) r a Ha) as (a' & Ha' & Hle).
    rewrite (obj_lookup _ _ _ Ha'). by apply Hle.
Qed.

Lemma deactivate_permanent_witness :
  objects demo_world !! 0%nat = Some sample_plain
  ∧ isActive
      (obj (run [op_toggle 0%nat; op_draw 0%nat; op_save "out" "test" (Ok tt)]
              (artist_deactivate 0%nat demo_world).2) 0%nat) 7 = false.
Proof.
  assert (H : objects demo_world !! 0%nat = Some sample_plain) by by vm_compute.
  split; [exact H|].
  apply (proj1 (deactivate_permanent demo_world 0%nat sample_plain H)
           [op_toggle 0%nat; op_draw 0%nat; op_save "out" "test" (Ok tt)] 7).
Defined.

(** C4. A [OneTimeArtist] with [when = w] that is not deactivated is active
    at frame [w] and at no other frame.  One [draw] sets [drawn], so the
    artist is done at once, at frame [w] as at any other; and [drawn] stays
    set, and the artist done, whatever is called afterwards. *)
Theorem OneTimeArtist_once (self : artist) (drawn : bool) (when : Z) :
  cls self = OneTimeArtist_ drawn when →
  deactivated self = false →
  (∀ f, isActive self f = true ↔ f = when)
  ∧ cls (draw self).1 = OneTimeArtist_ true when
  ∧ (∀ f, isDone (draw self).1 f = true)
  ∧ (∀ (w : world) (r : loc) (os : list op) (f : Z),
       objects w !! r = Some self →
       let w' := run os (artist_draw r w).2 in
       cls (obj w' r) = OneTimeArtist_ true when
       ∧ isDone (obj w' r) f = true).
Proof.
  intros Hcls Hd. split; [|split; [|split]].
  - intros f. unfold isActive. rewrite Hcls, Hd, andb_true_r. apply Z.eqb_eq.
  - unfold draw. by rewrite Hcls.
  - intros f. unfold draw, isDone. by rewrite Hcls.
  - intros w r os f Hr w'.
    assert (H0 : objects (artist_draw r w).2 !! r = Some (draw self).1).
    { simpl. rewrite lookup_insert_eq. by rewrite (obj_lookup _ _ _ Hr). }
    destruct (run_object os _ r _ H0) as (a' & _ & Hobj & Hle).
    fold w' in Hobj. rewrite Hobj.
    pose proof (le_cls _ _ Hle) as Hc. unfold draw in Hc.
    rewrite Hcls in Hc. simpl in Hc.
    destruct (cls a') as [| | |d' w''] eqn:E; try done.
    destruct Hc as [<- Hdr]. rewrite (Hdr eq_refl) in *.
    split; [done|]. unfold isDone. by rewrite E.
Qed.

Lemma OneTimeArtist_once_witness :
  cls sample_onetime = OneTimeArtist_ false 1
  ∧ deactivated sample_onetime = false
  ∧ isActive sample_onetime 2 ≠ true
  ∧ isDone (draw sample_onetime).1 1 = true.
Proof.
  destruct (OneTimeArtist_once sample_onetime false 1 eq_refl eq_refl)
    as (Hact & _ & Hdone & _).
  split; [reflexivity|]. split; [reflexivity|]. split; [|apply Hdone].
  intros H%Hact. lia.
Defined.

(** C6. A new canvas is at frame 1.  [save] runs [Canvas.draw] and hands
    [savefig] the path [folder/fname_n], where [n] is the frame counter
    before the call.  When [savefig] returns, [save] resets the axes and
    leaves the counter at [n + 1]; when [savefig] raises, [save] raises the
    same, without resetting the axes and with the counter still at [n].
    Every call other than a [save] whose [savefig] returns leaves the counter
    as it is, so that after any program the counter is the one before plus
    the number of such calls of [save], and never smaller than before. *)
Theorem frame_counter_advanced_by_save :
  (∀ width height xl yl dpi h log,
     frame_counter (canvas (Canvas_init width height xl yl dpi h log)) = 1)
  ∧ (∀ folder fname u w,
       ∃ w1 w2,
         Canvas_draw w = (Ok tt, w1)
         ∧ save folder fname (Ok u) w = (Ok tt, w2)
         ∧ calls w2
           = calls w1
             ++ [fig_savefig (folder +:+ "/" +:+ fname +:+ "_"
                              +:+ pretty (frame_counter (canvas w))) (Ok u);
                 ax_clear; ax_set_xlim (xlims (canvas w));
                 ax_set_ylim (ylims (canvas w))]
         ∧ objects w2 = objects w1
         ∧ artists (canvas w2) = artists (canvas w1)
         ∧ frame_counter (canvas w2) = frame_counter (canvas w) + 1)
  ∧ (∀ folder fname e w,
       ∃ w1 w2,
         Canvas_draw w = (Ok tt, w1)
         ∧ save folder fname (Raise e) w = (Raise e, w2)
         ∧ calls w2
           = calls w1
             ++ [fig_savefig (folder +:+ "/" +:+ fname +:+ "_"
                              +:+ pretty (frame_counter (canvas w)))
                   (Raise e)]
         ∧ objects w2 = objects w1
         ∧ canvas w2 = canvas w1
         ∧ frame_counter (canvas w2) = frame_counter (canvas w))
  ∧ (∀ o w, save_returns o = false →
       frame_counter (canvas (exec o w).2) = frame_counter (canvas w))
  ∧ (∀ os w,
       frame_counter (canvas (run os w))
       = frame_counter (canvas w)
         + Z.of_nat (length (filter save_returns os)))
  ∧ (∀ os w, frame_counter (canvas w) ≤ frame_counter (canvas (run os w))).
Proof.
  assert (Hsave : ∀ folder fname u w,
            frame_counter (canvas (save folder fname (Ok u) w).2)
            = frame_counter (canvas w) + 1).
  { intros folder fname u w.
    destruct (Canvas_draw_ok w) as (w1 & Hdraw & [_ (Hfc & _)]).
    rewrite (save_unfold _ _ _ _ _ Hdraw). simpl. by rewrite Hfc. }
  assert (Hother : ∀ o w, save_returns o = false →
            frame_counter (canvas (exec o w).2) = frame_counter (canvas w)).
  { intros o w Ho. by destruct (exec_stays o Ho w) as [_ (Hfc & _)]. }
  split; [done|]. split; [|split; [|split; [done|split]]].
  - intros folder fname u w.
    destruct (Canvas_draw_ok w) as (w1 & Hdraw & [_ (Hfc & Hx & Hy)]).
    eexists w1, _. split; [done|].
    split; [rewrite (save_unfold _ _ _ _ _ Hdraw); simpl; reflexivity|]. simpl.
    rewrite Hfc, Hx, Hy, <- app_assoc. done.
  - intros folder fname e w.
    destruct (Canvas_draw_ok w) as (w1 & Hdraw & [_ (Hfc & Hx & Hy)]).
    eexists w1, _. split; [done|].
    split; [rewrite (save_unfold _ _ _ _ _ Hdraw); simpl; reflexivity|]. simpl.
    by rewrite Hfc.
  - intros os. induction os as [|o os IH]; intros w; simpl; [lia|].
    rewrite IH, filter_cons. destruct (save_returns o) eqn:E.
    + rewrite decide_True by done.
      destruct o as [| | | | | | | | |folder fname [u|e]]; try done. simpl.
      rewrite Hsave. lia.
    + rewrite decide_False by (by intros []). rewrite Hother by done. lia.
  - intros os w. apply (run_le os w).
Qed.

Lemma frame_counter_advanced_by_save_witness :
  save_returns (op_save "frames" "test" (Raise FileNotFoundError)) = false
  ∧ frame_counter
      (canvas (exec (op_save "frames" "test" (Raise FileNotFoundError))
                 demo_world).2) = 1.
Proof.
  split; [reflexivity|].
  destruct frame_counter_advanced_by_save as (_ & _ & _ & H & _).
  rewrite (H (op_save "frames" "test" (Raise FileNotFoundError)) demo_world
             eq_refl).
  by vm_compute.
Defined.

(** * The stable sort *)

Section sort.
Context (key : loc → Z).

Local Instance key_le_trans : Transitive (key_le key).
Proof. unfold key_le. intros x y z. lia. Qed.

Lemma sort_insert_perm (x : loc) (l : list loc) :
  sort_insert key x l ≡ₚ x :: l.
Proof.
  induction l as [|y l IH]; simpl; [done|].
  destruct (key x <=? key y); [done|]. rewrite IH. apply Permutation_swap.
Qed.

Lemma list_sort_perm (l : list loc) : list_sort key l ≡ₚ l.
Proof.
  induction l as [|x l IH]; simpl; [done|].
  by rewrite sort_insert_perm, IH.
Qed.

Lemma sort_insert_sorted (x : loc) (l : list loc) :
  StronglySorted (key_le key) l →
  StronglySorted (key_le key) (sort_insert key x l).
Proof.
  induction 1 as [|y l Hl IH Hy]; simpl.
  { repeat constructor. }
  destruct (Z.leb_spec (key x) (key y)) as [Hle|Hlt].
  - constructor; [by constructor|]. constructor; [done|].
    eapply Forall_impl; [exact Hy|]. unfold key_le. intros z. lia.
  - constructor; [done|]. rewrite sort_insert_perm.
    constructor; [unfold key_le; lia|done].
Qed.

Lemma list_sort_sorted (l : list loc) :
  StronglySorted (key_le key) (list_sort key l).
Proof.
  induction l as [|x l IH]; simpl; [constructor|].
  by apply sort_insert_sorted.
Qed.

Lemma sort_insert_stable (k : Z) (x : loc) (l : list loc) :
  filter (λ r, key r = k) (sort_insert key x l)
  = filter (λ r, key r = k) (x :: l).
Proof.
  induction l as [|y l IH]; simpl; [done|].
  destruct (Z.leb_spec (key x) (key y)) as [Hle|Hlt]; [done|].
  rewrite (filter_cons _ y), IH, !(filter_cons _ x), (filter_cons _ y).
  destruct (decide (key y = k)), (decide (key x = k)); try done. lia.
Qed.

(** Elements with one key keep their order. *)
Lemma list_sort_stable (k : Z) (l : list loc) :
  filter (λ r, key r = k) (list_sort key l) = filter (λ r, key r = k) l.
Proof.
  induction l as [|x l IH]; simpl; [done|].
  by rewrite sort_insert_stable, !(filter_cons _ x), IH.
Qed.

(** Ascending keys and the order within each key determine a list: any
    stable sort by [key] returns what [list_sort] returns. *)
Lemma stable_sort_unique (l1 l2 : list loc) :
  StronglySorted (key_le key) l1 →
  StronglySorted (key_le key) l2 →
  (∀ k, filter (λ r, key r = k) l1 = filter (λ r, key r = k) l2) →
  l1 = l2.
Proof.
  intros H1. revert l2.
  induction H1 as [|x t1 Ht1 IH Hx]; intros l2 H2 Hf.
  - destruct l2 as [|y t2]; [done|]. specialize (Hf (key y)).
    rewrite filter_nil, filter_cons, decide_True in Hf by done. done.
  - destruct H2 as [|y t2 Ht2 Hy].
    { specialize (Hf (key x)).
      rewrite filter_nil, filter_cons, decide_True in Hf by done. done. }
    assert (Hxy : key y ≤ key x).
    { assert (Hin : x ∈ filter (λ r, key r = key x) (y :: t2)).
      { rewrite <- Hf. apply list_elem_of_filter. split; [done|left]. }
      apply list_elem_of_filter in Hin as [_ Hin].
      apply elem_of_cons in Hin as [->|Hin]; [lia|].
      rewrite Forall_forall in Hy. by apply Hy. }
    assert (Hyx : key x ≤ key y).
    { assert (Hin : y ∈ filter (λ r, key r = key y) (x :: t1)).
      { rewrite Hf. apply list_elem_of_filter. split; [done|left]. }
      apply list_elem_of_filter in Hin as [_ Hin].
      apply elem_of_cons in Hin as [->|Hin]; [lia|].
      rewrite Forall_forall in Hx. by apply Hx. }
    assert (Hk : key x = key y) by lia.
    pose proof (Hf (key x)) as Hhd.
    rewrite !filter_cons, decide_True in Hhd by done.
    rewrite decide_True in Hhd by done.
    injection Hhd as -> Htl. f_equal. apply IH; [done|].
    intros k. destruct (decide (key y = k)) as [<-|Hne]; [done|].
    specialize (Hf k). rewrite !filter_cons in Hf.
    by rewrite !decide_False in Hf.
Qed.

Lemma list_sort_sorted_id (l : list loc) :
  StronglySorted (key_le key) l → list_sort key l = l.
Proof.
  intros Hl. apply stable_sort_unique; [apply list_sort_sorted|done|].
  intros k. apply list_sort_stable.
Qed.

Lemma list_sort_idemp_app (l : list loc) (r : loc) :
  list_sort key (list_sort key l ++ [r]) = list_sort key (l ++ [r]).
Proof.
  apply stable_sort_unique; [apply list_sort_sorted..|].
  intros k. by rewrite !list_sort_stable, !filter_app, list_sort_stable.
Qed.
End sort.

Lemma sort_insert_ext (key key' : loc → Z) (x : loc) (l : list loc) :
  (∀ r, r ∈ x :: l → key r = key' r) →
  sort_insert key x l = sort_insert key' x l.
Proof.
  induction l as [|y l IH]; intros H; simpl; [done|].
  rewrite (H x), (H y) by (rewrite !elem_of_cons; tauto).
  destruct (key' x <=? key' y); [done|]. f_equal. apply IH.
  intros r Hr. apply H. rewrite !elem_of_cons in *. tauto.
Qed.

Lemma list_sort_ext (key key' : loc → Z) (l : list loc) :
  (∀ r, r ∈ l → key r = key' r) → list_sort key l = list_sort key' l.
Proof.
  induction l as [|x l IH]; intros H; simpl; [done|].
  rewrite <- IH by (intros; apply H; by right).
  apply sort_insert_ext. intros r Hr. apply H.
  by rewrite list_sort_perm in Hr.
Qed.

(** * Registration *)

Lemma addArtist_unfold (r : loc) (w : world) :
  addArtist r w
  = (Ok tt,
     (set_artists (list_sort (λ r', layer (obj w r'))
                     (artists (canvas w) ++ [r])) w).2).
Proof. reflexivity. Qed.

Lemma addArtistFactory_unfold (new_id : string) (f : factory) (c : ctor)
    (w : world) :
  addArtistFactory new_id f c w
  = addArtist (fresh (dom (objects w)))
      (store (fresh (dom (objects w))) (init new_id f c) w).2.
Proof. reflexivity. Qed.

Lemma register_ok (g : registration) (w : world) : (register g w).1 = Ok tt.
Proof. by destruct g. Qed.

(** One registration: the new address goes after the earlier ones in the
    sequence that the list is the sorted form of. *)
Lemma register_sorted (g : registration) (w : world) (l0 : list loc) :
  match g with
  | reg_addArtist artist => is_Some (objects w !! artist)
  | reg_addArtistFactory _ _ _ => True
  end →
  Forall (λ r, is_Some (objects w !! r)) l0 →
  artists (canvas w) = list_sort (λ r, layer (obj w r)) l0 →
  let w1 := (register g w).2 in
  Forall (λ r, is_Some (objects w1 !! r)) (l0 ++ [registered_loc g w])
  ∧ artists (canvas w1)
    = list_sort (λ r, layer (obj w1 r)) (l0 ++ [registered_loc g w]).
Proof.
  intros Hg Hl0 Hsorted. destruct g as [r|new_id f c]; simpl.
  - split.
    + apply Forall_app. split; [done|]. by apply Forall_singleton.
    + rewrite Hsorted. apply list_sort_idemp_app.
  - set (r := fresh (dom (objects w))).
    assert (Hfresh : objects w !! r = None).
    { apply not_elem_of_dom, is_fresh. }
    assert (Hold : ∀ r', r' ∈ l0 → r' ≠ r).
    { intros r' Hr' ->. rewrite Forall_forall in Hl0.
      destruct (Hl0 r Hr') as [a Ha]. congruence. }
    split.
    + apply Forall_app. split.
      * rewrite Forall_forall in Hl0. apply Forall_forall. intros r' Hr'.
        rewrite lookup_insert_ne by (by apply not_eq_sym, Hold). by apply Hl0.
      * apply Forall_singleton. rewrite lookup_insert_eq. by eexists.
    + rewrite Hsorted.
      set (key1 := λ r0 : loc, layer (obj _ r0)).
      rewrite (list_sort_ext _ key1 l0); [apply list_sort_idemp_app|].
      intros r' Hr'. unfold key1, obj. simpl.
      by rewrite lookup_total_insert_ne by (by apply not_eq_sym, Hold).
Qed.

Lemma register_all_sorted (gs : list registration) (w : world)
    (l0 : list loc) :
  valid_registrations gs w →
  Forall (λ r, is_Some (objects w !! r)) l0 →
  artists (canvas w) = list_sort (λ r, layer (obj w r)) l0 →
  let w' := register_all gs w in
  artists (canvas w')
  = list_sort (λ r, layer (obj w' r)) (l0 ++ registered gs w).
Proof.
  revert w l0. induction gs as [|g gs IH]; intros w l0 Hv Hl0 Hs; simpl.
  { by rewrite app_nil_r. }
  destruct Hv as [Hg Hv].
  destruct (register_sorted g w l0 Hg Hl0 Hs) as [Hl1 Hs1].
  rewrite (IH _ _ Hv Hl1 Hs1). by rewrite <- app_assoc.
Qed.

(** C5. Take a canvas whose managed artists are in ascending order of
    their layers, as on a new canvas, which has none.  After any sequence of
    [addArtist] and [addArtistFactory] calls, none of which raises,
    [getAllArtists] returns the artists there were and the registered ones,
    each as often as it was registered, in ascending order of their layers,
    and those of one layer in the order in which they stood and then were
    registered: it returns the stable sort by layer of the earlier list
    followed by the sequence of registrations.  Each call appends its artist
    and sorts. *)
Theorem registration_order (gs : list registration) (w : world) :
  wf w →
  StronglySorted (by_layer w) (artists (canvas w)) →
  valid_registrations gs w →
  let w' := register_all gs w in
  let key := λ r, layer (obj w' r) in
  let sequence := artists (canvas w) ++ registered gs w in
  (∀ g w0, (register g w0).1 = Ok tt)
  ∧ (∀ g w0,
       getAllArtists (register g w0).2
       = list_sort (λ r, layer (obj (register g w0).2 r))
           (getAllArtists w0 ++ [registered_loc g w0]))
  ∧ getAllArtists w' = list_sort key sequence
  ∧ StronglySorted (by_layer w') (getAllArtists w')
  ∧ Sorted (by_layer w') (getAllArtists w')
  ∧ getAllArtists w' ≡ₚ sequence
  ∧ ∀ k, filter (λ r, key r = k) (getAllArtists w')
         = filter (λ r, key r = k) sequence.
Proof.
  intros Hwf Hsorted Hv w' key sequence.
  assert (Hs : getAllArtists w' = list_sort key sequence).
  { apply (register_all_sorted gs w (artists (canvas w)) Hv Hwf).
    symmetry. by apply list_sort_sorted_id. }
  split; [apply register_ok|]. split; [by intros []|].
  split; [done|]. rewrite Hs.
  split; [apply (list_sort_sorted key)|].
  split; [apply StronglySorted_Sorted, (list_sort_sorted key)|].
  split; [apply list_sort_perm|]. intros k. apply list_sort_stable.
Qed.

Lemma registration_order_witness :
  wf empty_world
  ∧ StronglySorted (by_layer empty_world) (artists (canvas empty_world))
  ∧ valid_registrations sample_registrations empty_world
  ∧ registered sample_registrations empty_world = [0; 1; 2; 3; 0]%nat
  ∧ getAllArtists (register_all sample_registrations empty_world)
    = [1; 3; 0; 2; 0]%nat.
Proof.
  assert (Hwf : wf empty_world) by (vm_compute; constructor).
  assert (Hs : StronglySorted (by_layer empty_world)
                 (artists (canvas empty_world)))
    by (vm_compute; constructor).
  assert (Hv : valid_registrations sample_registrations empty_world).
  { vm_compute. repeat split; by eexists. }
  split; [exact Hwf|]. split; [exact Hs|]. split; [exact Hv|].
  split; [by vm_compute|].
  destruct (registration_order sample_registrations empty_world Hwf Hs Hv)
    as (_ & _ & -> & _).
  by vm_compute.
Defined.

(** * Well-formed worlds *)

Lemma show_unfold (w w1 : world) :
  Canvas_draw w = (Ok tt, w1) → show w = (Ok tt, (emit [plt_show] w1).2).
Proof. intros H. unfold show. by rewrite bind_unfold, H. Qed.

(** Where the managed addresses of the next world come from. *)
Lemma exec_artists (o : op) (w : world) (r : loc) :
  valid_op o w →
  r ∈ artists (canvas (exec o w).2) →
  r ∈ artists (canvas w) ∨ is_Some (objects (exec o w).2 !! r).
Proof.
  intros Hv.
  destruct (Canvas_draw_spec w)
    as (w1 & w' & _ & _ & Hdraw & _ & _ & _ & _ & Hsub & _).
  destruct o; unfold exec.
  - intros Hr. left. exact Hr.
  - intros Hr. left. exact Hr.
  - intros Hr. left. exact Hr.
  - unfold artist_toggle. rewrite bind_unfold. simpl. rewrite bind_unfold.
    unfold lift. destruct (toggle (obj w artist0)); intros Hr; left; exact Hr.
  - rewrite addArtistFactory_unfold, addArtist_unfold. simpl.
    rewrite list_sort_perm. intros [?|Hr]%elem_of_app; [by left|].
    apply list_elem_of_singleton in Hr as ->. right.
    rewrite lookup_insert_eq. by eexists.
  - rewrite addArtist_unfold. simpl.
    rewrite list_sort_perm. intros [?|Hr]%elem_of_app; [by left|].
    apply list_elem_of_singleton in Hr as ->. by right.
  - rewrite Hdraw. simpl. intros Hr. left.
    eapply elem_of_sublist; [exact Hr|exact Hsub].
  - intros Hr. left. exact Hr.
  - rewrite (show_unfold _ _ Hdraw). simpl. intros Hr. left.
    eapply elem_of_sublist; [exact Hr|exact Hsub].
  - rewrite (save_unfold _ _ _ _ _ Hdraw).
    destruct savefig; simpl; intros Hr; left;
      (eapply elem_of_sublist; [exact Hr|exact Hsub]).
Qed.

Lemma exec_wf (o : op) (w : world) : wf w → valid_op o w → wf (exec o w).2.
Proof.
  unfold wf. rewrite !Forall_forall. intros Hwf Hv r Hr.
  destruct (exec_artists o w r Hv Hr) as [Hold|Hnew]; [|done].
  destruct (Hwf r Hold) as [a Ha].
  destruct (le_objects _ _ (exec_le o w) r a Ha) as (a' & Ha' & _).
  by eexists.
Qed.

Lemma Canvas_init_wf (width height : Z) (xl yl : lims) (dpi : Z)
    (h : gmap loc artist) (log : list call) :
  wf (Canvas_init width height xl yl dpi h log).
Proof. apply Forall_nil_2. Qed.

(** * Two scenarios *)

(** A permanent artist on layer 0 and a timed one on layer 1 with window
    [10, 20]: the active artists at frames 1 and 15. *)
Example scenario_timed :
  let w := run [op_addArtistFactory "aaaaaaaaaa" "A" (new_Artist 0);
                op_addArtistFactory "bbbbbbbbbb" "B" (new_TimedArtist 10 20 1)]
             empty_world in
  getActiveArtists w = [0%nat]
  ∧ frame_counter (canvas (run (replicate 14 (op_save "out" "f" (Ok tt))) w)) = 15
  ∧ getActiveArtists (run (replicate 14 (op_save "out" "f" (Ok tt))) w) = [0; 1]%nat.
Proof. by vm_compute. Qed.

(** A one-time artist due at frame 5: active at frame 5, and gone after one
    call of [Canvas.draw] there. *)
Example scenario_onetime :
  let w := run (op_addArtistFactory "cccccccccc" "C" (new_OneTimeArtist 5 0)
                :: replicate 4 (op_save "out" "f" (Ok tt)))
             empty_world in
  frame_counter (canvas w) = 5
  ∧ getActiveArtists w = [0%nat]
  ∧ getAllArtists (Canvas_draw w).2 = [].
Proof. by vm_compute. Qed.

(** * What each call does to the log, and whether it returns *)

Lemma Canvas_draw_calls (w : world) :
  ∃ w', Canvas_draw w = (Ok tt, w')
      ∧ calls w' = calls w ++ drawn_calls w (artists (canvas w))
      ∧ same_frame w w'.
Proof.
  destruct (Canvas_draw_spec w)
    as (w1 & w' & _ & _ & Hdraw & Hc & Hcalls & _ & (_ & Hsame & Hfr) & _).
  exists w'. split; [done|]. split; [congruence|].
  destruct Hfr as (? & ? & ?). unfold same_frame. rewrite <- Hc. done.
Qed.

Lemma toggle_unfold (r : loc) (w : world) :
  artist_toggle r w
  = match toggle (obj w r) with
    | Ok self' => (Ok tt, (store r self' w).2)
    | Raise e => (Raise e, w)
    end.
Proof.
  unfold artist_toggle. rewrite bind_unfold. simpl. rewrite bind_unfold.
  unfold lift. by destruct (toggle (obj w r)).
Qed.

Lemma exec_calls (o : op) (w : world) :
  calls (exec o w).2 = calls w ++ emitted o w
  ∧ (exec o w).1 = outcome o w.
Proof.
  destruct (Canvas_draw_calls w) as (w' & Hdraw & Hcalls & Hfc & Hx & Hy).
  destruct o; simpl; try (by rewrite ?app_nil_r).
  - rewrite draw_calls. done.
  - rewrite toggle_unfold. destruct (toggle (obj w artist0)); simpl;
      by rewrite app_nil_r.
  - by rewrite Hdraw.
  - rewrite (show_unfold _ _ Hdraw). simpl. by rewrite Hcalls, app_assoc.
  - rewrite (save_unfold _ _ _ _ _ Hdraw).
    destruct savefig; simpl;
      rewrite Hcalls, Hfc, ?Hx, ?Hy, <- !app_assoc; done.
Qed.

Lemma exec_frame_counter (o : op) (w : world) :
  frame_counter (canvas (exec o w).2)
  = frame_counter (canvas w) + (if save_returns o then 1 else 0).
Proof.
  destruct (save_returns o) eqn:E.
  - destruct o as [| | | | | | | | |folder fname [u|e]]; try done. simpl.
    destruct (Canvas_draw_ok w) as (w1 & Hdraw & [_ (Hfc & _)]).
    rewrite (save_unfold _ _ _ _ _ Hdraw). simpl. by rewrite Hfc.
  - destruct (exec_stays o E w) as [_ (Hfc & _)]. lia.
Qed.

Lemma exec_limits (o : op) (w : world) :
  xlims (canvas (exec o w).2) = xlims (canvas w)
  ∧ ylims (canvas (exec o w).2) = ylims (canvas w).
Proof.
  destruct (save_returns o) eqn:E.
  - destruct o as [| | | | | | | | |folder fname [u|e]]; try done. simpl.
    destruct (Canvas_draw_ok w) as (w1 & Hdraw & [_ (_ & Hx & Hy)]).
    by rewrite (save_unfold _ _ _ _ _ Hdraw).
  - by destruct (exec_stays o E w) as [_ (_ & Hx & Hy)].
Qed.

Lemma run_cons (o : op) (os : list op) (w : world) :
  run (o :: os) w = run os (exec o w).2.
Proof. reflexivity. Qed.

Lemma run_app (os os' : list op) (w : world) :
  run (os ++ os') w = run os' (run os w).
Proof. apply foldl_app. Qed.

Lemma length_saved_by (os : list op) (n : Z) :
  length (saved_by os n) = length (filter save_returns os).
Proof.
  revert n. induction os as [|o os IH]; intros n; [done|].
  rewrite filter_cons.
  destruct o as [| | | | | | | | |folder fname [u|e]]; simpl; try apply IH.
  by rewrite IH.
Qed.

Lemma length_savefig_by (os : list op) (n : Z) :
  length (savefig_by os n) = length (filter is_save os).
Proof.
  revert n. induction os as [|o os IH]; intros n; [done|].
  rewrite filter_cons.
  destruct o as [| | | | | | | | |folder fname [u|e]]; simpl; try apply IH;
    by rewrite IH.
Qed.

Lemma run_frame_counter (os : list op) (w : world) :
  frame_counter (canvas (run os w))
  = frame_counter (canvas w) + Z.of_nat (length (saved_by os (frame_counter (canvas w)))).
Proof.
  revert w. induction os as [|o os IH]; intros w; [simpl; lia|].
  rewrite run_cons, IH, exec_frame_counter, !length_saved_by, filter_cons.
  destruct o as [| | | | | | | | |folder fname [u|e]]; simpl; lia.
Qed.

(** * The files a program writes *)

Lemma savefig_calls_app (l1 l2 : list call) :
  savefig_calls (l1 ++ l2) = savefig_calls l1 ++ savefig_calls l2.
Proof. apply omap_app. Qed.

Lemma savefig_calls_drawn_calls (w : world) (l : list loc) :
  savefig_calls (drawn_calls w l) = [].
Proof.
  unfold drawn_calls.
  induction (filter _ l) as [|r l' IH]; [done|]. simpl. apply IH.
Qed.

Lemma savefig_calls_emitted (o : op) (w : world) :
  savefig_calls (emitted o w) = savefig_by [o] (frame_counter (canvas w)).
Proof.
  destruct o as [| | | | | | | | |folder fname [u|e]]; simpl;
    rewrite ?savefig_calls_app, ?savefig_calls_drawn_calls; done.
Qed.

Lemma run_savefig_calls (os : list op) (w : world) :
  savefig_calls (calls (run os w))
  = savefig_calls (calls w) ++ savefig_by os (frame_counter (canvas w)).
Proof.
  revert w. induction os as [|o os IH]; intros w.
  { simpl. by rewrite app_nil_r. }
  rewrite run_cons, IH, (proj1 (exec_calls o w)), savefig_calls_app,
    savefig_calls_emitted, exec_frame_counter, <- app_assoc.
  f_equal.
  destruct o as [| | | | | | | | |folder fname [u|e]]; simpl;
    rewrite ?Z.add_0_r; done.
Qed.

Lemma saved_paths_app (l1 l2 : list call) :
  saved_paths (l1 ++ l2) = saved_paths l1 ++ saved_paths l2.
Proof. apply omap_app. Qed.

Lemma saved_paths_drawn_calls (w : world) (l : list loc) :
  saved_paths (drawn_calls w l) = [].
Proof.
  unfold drawn_calls.
  induction (filter _ l) as [|r l' IH]; [done|]. simpl. apply IH.
Qed.

Lemma saved_paths_emitted (o : op) (w : world) :
  saved_paths (emitted o w) = saved_by [o] (frame_counter (canvas w)).
Proof.
  destruct o as [| | | | | | | | |folder fname [u|e]]; simpl;
    rewrite ?saved_paths_app, ?saved_paths_drawn_calls; done.
Qed.

Lemma run_saved_paths (os : list op) (w : world) :
  saved_paths (calls (run os w))
  = saved_paths (calls w) ++ saved_by os (frame_counter (canvas w)).
Proof.
  revert w. induction os as [|o os IH]; intros w.
  { simpl. by rewrite app_nil_r. }
  rewrite run_cons, IH, (proj1 (exec_calls o w)), saved_paths_app,
    saved_paths_emitted, exec_frame_counter, <- app_assoc.
  f_equal.
  destruct o as [| | | | | | | | |folder fname [u|e]]; simpl;
    rewrite ?Z.add_0_r; done.
Qed.

Lemma string_app_assoc (s1 s2 s3 : string) :
  (s1 +:+ s2) +:+ s3 = s1 +:+ s2 +:+ s3.
Proof.
  induction s1 as [|c s1 IH]; [done|]. exact (f_equal (String c) IH).
Qed.

Lemma occurs_app (c : ascii) (s1 s2 : string) :
  occurs c (s1 +:+ s2) = occurs c s1 || occurs c s2.
Proof.
  induction s1 as [|c' s1 IH]; simpl; [done|]. by rewrite IH, orb_assoc.
Qed.

Lemma occurs_pretty_N_go (x : N) (s : string) :
  occurs "_" (pretty_N_go x s) = occurs "_" s.
Proof.
  revert s. induction (N.lt_wf_0 x) as [x _ IH]; intros s.
  destruct (decide (x = 0%N)) as [->|Hx]; [by rewrite pretty_N_go_0|].
  rewrite pretty_N_go_step by lia. rewrite IH by (apply N.div_lt; lia).
  simpl. rewrite bool_decide_eq_false_2; [done|].
  assert (Hm : (x `mod` 10 < 10)%N) by (apply N.mod_lt; lia).
  generalize dependent (x `mod` 10)%N. intros d Hd.
  assert (d = 0 ∨ d = 1 ∨ d = 2 ∨ d = 3 ∨ d = 4 ∨ d = 5 ∨ d = 6 ∨ d = 7
          ∨ d = 8 ∨ d = 9)%N as Hcases by lia.
  destruct Hcases as [->|[->|[->|[->|[->|[->|[->|[->|[->| ->]]]]]]]]]; done.
Qed.

(** The decimal form of an integer has no underscore. *)
Lemma occurs_pretty_Z (n : Z) : occurs "_" (pretty n) = false.
Proof.
  assert (HN : ∀ x : N, occurs "_" (pretty x) = false).
  { intros x. unfold pretty, pretty_N. case_decide; [done|].
    by rewrite occurs_pretty_N_go. }
  destruct n as [|p|p]; [done|apply (HN (Npos p))|].
  unfold pretty, pretty_Z. rewrite occurs_app. simpl. apply (HN (Npos p)).
Qed.

(** What follows the last occurrence of a character is determined by the
    whole string. *)
Lemma after_last_char (c : ascii) (s1 s2 d1 d2 : string) :
  occurs c d1 = false → occurs c d2 = false →
  s1 +:+ String c d1 = s2 +:+ String c d2 → d1 = d2.
Proof.
  intros H1 H2. revert s2.
  induction s1 as [|c1 s1 IH]; intros [|c2 s2]; simpl; intros Heq.
  - by injection Heq.
  - injection Heq as -> ->. rewrite occurs_app in H1. simpl in H1.
    rewrite bool_decide_eq_true_2, orb_true_r in H1 by done. done.
  - injection Heq as -> <-. rewrite occurs_app in H2. simpl in H2.
    rewrite bool_decide_eq_true_2, orb_true_r in H2 by done. done.
  - injection Heq as -> Heq. by apply (IH s2).
Qed.

Lemma frame_path_counter (folder fname folder' fname' : string) (n n' : Z) :
  frame_path folder fname n = frame_path folder' fname' n' → n = n'.
Proof.
  unfold frame_path. intros Heq.
  apply (inj pretty).
  apply (after_last_char "_" (folder +:+ "/" +:+ fname)
           (folder' +:+ "/" +:+ fname')); [apply occurs_pretty_Z..|].
  rewrite !string_app_assoc. exact Heq.
Qed.

Lemma saved_by_counter (os : list op) (n : Z) (path : string) :
  path ∈ saved_by os n →
  ∃ folder fname k, path = frame_path folder fname k ∧ n ≤ k.
Proof.
  revert n. induction os as [|o os IH]; intros n; [by intros ?%elem_of_nil|].
  destruct o as [| | | | | | | | |folder fname [u|e]]; simpl; try apply IH.
  intros [->|Hin]%elem_of_cons.
  - exists folder, fname, n. split; [done|lia].
  - apply IH in Hin as (fo & fn & k & ? & ?). exists fo, fn, k.
    split; [done|lia].
Qed.

Lemma NoDup_saved_by (os : list op) (n : Z) : NoDup (saved_by os n).
Proof.
  revert n. induction os as [|o os IH]; intros n; [constructor|].
  destruct o as [| | | | | | | | |folder fname [u|e]]; simpl; try apply IH.
  constructor; [|apply IH].
  intros (folder' & fname' & k & Heq & Hk)%saved_by_counter.
  apply frame_path_counter in Heq. lia.
Qed.

Lemma savefig_by_counter (os : list op) (n : Z) (c : string * result unit) :
  c ∈ savefig_by os n →
  ∃ folder fname k, c.1 = frame_path folder fname k ∧ n ≤ k.
Proof.
  revert n. induction os as [|o os IH]; intros n; [by intros ?%elem_of_nil|].
  destruct o as [| | | | | | | | |folder fname [u|e]]; simpl; try apply IH.
  - intros [->|Hin]%elem_of_cons.
    + exists folder, fname, n. split; [done|lia].
    + apply IH in Hin as (fo & fn & k & ? & ?). exists fo, fn, k.
      split; [done|lia].
  - intros [->|Hin]%elem_of_cons.
    + exists folder, fname, n. split; [done|lia].
    + by apply IH.
Qed.

(** No call of [savefig] is handed the path of an earlier one that
    returned. *)
Lemma savefig_by_fresh (os : list op) (n : Z) (i j : nat) (p q : string)
    (u : unit) (io : result unit) :
  (i < j)%nat →
  savefig_by os n !! i = Some (p, Ok u) →
  savefig_by os n !! j = Some (q, io) →
  p ≠ q.
Proof.
  revert n i j. induction os as [|o os IH]; intros n i j Hij; [done|].
  destruct o as [| | | | | | | | |folder fname [u0|e]]; simpl;
    try (by apply IH).
  - destruct i as [|i], j as [|j]; simpl; try lia.
    + intros [= <- _] Hj%list_elem_of_lookup_2 <-.
      apply savefig_by_counter in Hj as (fo & fn & k & Heq & Hk).
      simpl in Heq. apply frame_path_counter in Heq. lia.
    + apply IH. lia.
  - destruct i as [|i], j as [|j]; simpl; try lia; [done|].
    apply IH. lia.
Qed.

(** X5. What every call sends to matplotlib, and whether it returns, the
    callbacks and the plotting calls other than [savefig] returning.
    Constructing, registering, deactivating and toggling send nothing;
    [draw] of an artist sends its callback and [plt.draw]; [Canvas.draw]
    sends that for each active artist; [show] adds one [plt.show];
    [resetAxes] clears and sets the two limits; [save] sends the pass, then
    [savefig] with the path of the current frame, then, when [savefig]
    returned, the reset.  Two calls can raise.  [toggle] on an artist that is
    not a [ToggledArtist] raises [AttributeError] and changes nothing.
    [save] raises what [savefig] raises, and leaves the canvas as
    [Canvas.draw] left it: the axes are not reset and the frame counter is
    not advanced. *)
Theorem call_log_and_outcome (o : op) (w : world) :
  calls (exec o w).2 = calls w ++ emitted o w
  ∧ (exec o w).1 = outcome o w
  ∧ ((exec o w).1 = Ok tt
     ∨ (∃ r, o = op_toggle r
           ∧ exec o w = (Raise AttributeError, w)
           ∧ ∀ state, cls (obj w r) ≠ ToggledArtist_ state)
     ∨ (∃ folder fname e w1,
          o = op_save folder fname (Raise e)
          ∧ Canvas_draw w = (Ok tt, w1)
          ∧ exec o w
            = (Raise e,
               mkWorld (objects w1) (canvas w1)
                 (calls w1
                  ++ [fig_savefig
                        (frame_path folder fname (frame_counter (canvas w)))
                        (Raise e)])))).
Proof.
  destruct (exec_calls o w) as [Hcalls Hout].
  split; [done|]. split; [done|]. rewrite Hout.
  destruct o as [| |r|r| | | | | |folder fname [u|e]]; simpl; try (by left).
  - rewrite toggle_unfold. unfold toggle.
    destruct (cls (obj w r)) eqn:E; try (by left);
      right; left; exists r; by rewrite E.
  - right. right.
    destruct (Canvas_draw_ok w) as (w1 & Hdraw & [_ (Hfc & _)]).
    exists folder, fname, e, w1. split; [done|]. split; [done|].
    rewrite (save_unfold _ _ _ _ _ Hdraw). simpl. by rewrite Hfc.
Qed.

(** X6. The calls of [savefig] a program makes on a canvas are those of its
    [save] calls, in order, each handed the path named after the frame
    counter at the time of the call; the files written are those of the
    calls that returned.  The counter grows by the number of files written,
    so that on a canvas that starts at frame 1 with nothing written the
    counter is always one more than the number of files written.  A [save]
    that follows one whose [savefig] raised is handed the same frame
    number. *)
Theorem files_written (os : list op) (w : world) :
  let n := frame_counter (canvas w) in
  savefig_calls (calls (run os w)) = savefig_calls (calls w) ++ savefig_by os n
  ∧ length (savefig_by os n) = length (filter is_save os)
  ∧ saved_paths (calls (run os w)) = saved_paths (calls w) ++ saved_by os n
  ∧ length (saved_by os n) = length (filter save_returns os)
  ∧ frame_counter (canvas (run os w)) = n + Z.of_nat (length (saved_by os n))
  ∧ (saved_paths (calls w) = [] → n = 1 →
     frame_counter (canvas (run os w))
     = 1 + Z.of_nat (length (saved_paths (calls (run os w)))))
  ∧ (∀ folder fname e folder' fname' io,
       savefig_calls
         (calls (run [op_save folder fname (Raise e);
                      op_save folder' fname' io] w))
       = savefig_calls (calls w)
         ++ [(frame_path folder fname n, Raise e);
             (frame_path folder' fname' n, io)]).
Proof.
  intros n. split; [apply run_savefig_calls|].
  split; [apply length_savefig_by|].
  split; [apply run_saved_paths|]. split; [apply length_saved_by|].
  split; [apply run_frame_counter|]. split.
  - intros Hnone Hn.
    rewrite run_frame_counter, run_saved_paths, Hnone. fold n. by rewrite Hn.
  - intros folder fname e folder' fname' io. rewrite run_savefig_calls.
    fold n. by destruct io.
Qed.

Lemma files_written_witness :
  saved_paths (calls empty_world) = []
  ∧ frame_counter (canvas empty_world) = 1
  ∧ saved_paths (calls (run sample_saves empty_world))
    = ["out/test_1"; "out/test_1_2"; "o/ut/test_3"; "out/test_4"]%string
  ∧ frame_counter (canvas (run sample_saves empty_world)) = 5
  ∧ savefig_calls (calls (run sample_failing_saves empty_world))
    = [("out/test_1", Ok tt); ("frames/test_2", Raise FileNotFoundError);
       ("frames/test_2", Ok tt); ("out/test.v1_3", Raise ValueError);
       ("out/test_3", Ok tt)]%string
  ∧ frame_counter (canvas (run sample_failing_saves empty_world)) = 4.
Proof.
  destruct (files_written sample_saves empty_world)
    as (_ & _ & Hp & _ & _ & Hfc & _).
  destruct (files_written sample_failing_saves empty_world)
    as (Hc' & _ & Hp' & _ & _ & Hfc' & _).
  split; [reflexivity|]. split; [reflexivity|]. split; [|split; [|split]].
  - rewrite Hp. by vm_compute.
  - rewrite (Hfc eq_refl eq_refl), Hp. by vm_compute.
  - rewrite Hc'. by vm_compute.
  - rewrite (Hfc' eq_refl eq_refl), Hp'. by vm_compute.
Defined.

(** X7. Among the saves of one canvas, no call of [savefig] is handed the
    path of a file that an earlier save of that canvas wrote, whatever the
    folders and names: a path ends in an underscore and the frame counter,
    and the counter has grown since the earlier file was written.  So the
    files a canvas writes have pairwise different paths, on a new canvas
    from the first save on.  (Two paths with one frame number can be equal,
    as when a save is tried again after [savefig] raised.) *)
Theorem saves_never_overwrite (os : list op) (w : world) :
  (∀ folder fname folder' fname' n n',
     frame_path folder fname n = frame_path folder' fname' n' → n = n')
  ∧ (∃ new,
       savefig_calls (calls (run os w)) = savefig_calls (calls w) ++ new
       ∧ length new = length (filter is_save os)
       ∧ ∀ i j p q u io,
           (i < j)%nat → new !! i = Some (p, Ok u) → new !! j = Some (q, io) →
           p ≠ q)
  ∧ (∃ written,
       saved_paths (calls (run os w)) = saved_paths (calls w) ++ written
       ∧ length written = length (filter save_returns os)
       ∧ NoDup written)
  ∧ (∀ width height xl yl dpi h,
       let w0 := Canvas_init width height xl yl dpi h [] in
       NoDup (saved_paths (calls (run os w0)))
       ∧ ∀ i j p q u io,
           (i < j)%nat →
           savefig_calls (calls (run os w0)) !! i = Some (p, Ok u) →
           savefig_calls (calls (run os w0)) !! j = Some (q, io) →
           p ≠ q).
Proof.
  split; [apply frame_path_counter|]. split; [|split].
  - exists (savefig_by os (frame_counter (canvas w))).
    split; [apply run_savefig_calls|]. split; [apply length_savefig_by|].
    intros i j p q u io. apply savefig_by_fresh.
  - exists (saved_by os (frame_counter (canvas w))).
    split; [apply run_saved_paths|]. split; [apply length_saved_by|].
    apply NoDup_saved_by.
  - intros width height xl yl dpi h w0.
    rewrite run_saved_paths, run_savefig_calls. simpl.
    split; [apply NoDup_saved_by|].
    intros i j p q u io. apply savefig_by_fresh.
Qed.

Lemma saves_never_overwrite_witness :
  frame_path "out/a" "test" 2 = frame_path "out" "a/test" 2
  ∧ frame_path "out" "test_1" 2 ≠ frame_path "out" "test" 12
  ∧ NoDup (saved_paths (calls (run sample_failing_saves empty_world))).
Proof.
  split; [reflexivity|].
  destruct (saves_never_overwrite sample_failing_saves empty_world)
    as (Hinj & _ & _ & Hnew).
  split.
  - intros H. apply Hinj in H. lia.
  - apply (Hnew 5 5 (0, 10) (0, 10) 100 ∅).
Defined.

(** * More about the pass *)

Lemma StronglySorted_sublist {A} (R : relation A) (l1 l2 : list A) :
  l1 `sublist_of` l2 → StronglySorted R l2 → StronglySorted R l1.
Proof.
  induction 1 as [|x l1 l2 Hsub IH|x l1 l2 Hsub IH]; intros Hs; [done|..].
  - apply StronglySorted_inv in Hs as [Hs Hx].
    constructor; [by apply IH|].
    rewrite Forall_forall in *. intros y Hy. apply Hx.
    by eapply elem_of_sublist.
  - apply StronglySorted_inv in Hs as [Hs _]. by apply IH.
Qed.

Lemma filter_all (P : loc → Prop) `{!∀ x, Decision (P x)} (l : list loc) :
  (∀ x, x ∈ l → P x) → filter P l = l.
Proof.
  induction l as [|x l IH]; intros Hall; [done|].
  rewrite filter_cons, decide_True by (apply Hall; left).
  f_equal. apply IH. intros y Hy. apply Hall. by right.
Qed.

(** [Canvas.draw] when distinct managed artists have distinct ids. *)
Lemma Canvas_draw_after (w : world) :
  ids_distinct w →
  let fc := frame_counter (canvas w) in
  let l := artists (canvas w) in
  ∃ w', Canvas_draw w = (Ok tt, w')
      ∧ artists (canvas w')
        = filter (λ r, isDone (visit fc (obj w r)) fc = false) l
      ∧ (∀ r, obj w' r = if bool_decide (r ∈ l) then visit fc (obj w r)
                         else obj w r)
      ∧ ids_distinct w'
      ∧ same_frame w w'
      ∧ calls w' = calls w ++ drawn_calls w l.
Proof.
  intros Hids fc l.
  destruct (Canvas_draw_spec w)
    as (w1 & w' & _ & _ & Hdraw & Hc & Hcalls & Hobj & (Ho & Hcs & Hfr) & _ & Hres).
  fold fc l in Hobj, Hres, Hcalls. specialize (Hres Hids).
  assert (Hobj' : ∀ r, obj w' r = obj w1 r) by (intros r; unfold obj; by rewrite Ho).
  exists w'. split; [done|]. split; [done|]. split.
  { intros r. by rewrite Hobj'. }
  split; [|split].
  - apply ids_distinct_inj. intros r1 r2 H1 H2.
    rewrite Hres in H1, H2.
    apply list_elem_of_filter in H1 as [_ H1], H2 as [_ H2].
    rewrite !Hobj', !Hobj, !bool_decide_eq_true_2, !id_visit by done.
    by apply (proj1 (ids_distinct_inj w) Hids).
  - destruct Hfr as (? & ? & ?). unfold same_frame. by rewrite <- Hc.
  - congruence.
Qed.

(** X1. One call of [Canvas.draw] calls the callbacks of exactly the artists
    that [getActiveArtists] returns before the call, in the order of that
    list, each followed by [plt.draw].  The list is a part of
    [getAllArtists], in the same order; hence, on a canvas whose artists are
    in ascending order of their layers, artists of lower layers are drawn
    first. *)
Theorem Canvas_draw_order (w : world) :
  ∃ w', Canvas_draw w = (Ok tt, w')
      ∧ calls w'
        = calls w
          ++ flat_map (λ r, [invoke (artist_factory (obj w r)); plt_draw])
               (getActiveArtists w)
      ∧ getActiveArtists w `sublist_of` getAllArtists w
      ∧ (StronglySorted (by_layer w) (getAllArtists w) →
         StronglySorted (by_layer w) (getActiveArtists w)).
Proof.
  destruct (Canvas_draw_calls w) as (w' & Hdraw & Hcalls & _).
  exists w'. split; [done|]. split; [done|].
  split; [apply sublist_filter|].
  apply StronglySorted_sublist, sublist_filter.
Qed.

Lemma Canvas_draw_order_witness :
  StronglySorted (by_layer layered_world) (getAllArtists layered_world)
  ∧ getAllArtists layered_world = [1; 3; 0; 2; 0]%nat
  ∧ StronglySorted (by_layer layered_world) (getActiveArtists layered_world).
Proof.
  assert (H : StronglySorted (by_layer layered_world)
                (getAllArtists layered_world))
    by (by apply (bool_decide_unpack _); vm_compute).
  split; [exact H|]. split; [by vm_compute|].
  destruct (Canvas_draw_order layered_world) as (w' & _ & _ & _ & Hs).
  exact (Hs H).
Defined.

(** X3. When distinct managed artists have distinct ids, a second call of
    [Canvas.draw] at the same frame removes nothing and changes no artist:
    the first call has left no artist that is done.  It does call the
    callbacks of the remaining active artists again. *)
Theorem Canvas_draw_twice (w : world) :
  ids_distinct w →
  let w' := (Canvas_draw w).2 in
  let w'' := (Canvas_draw w').2 in
  ids_distinct w'
  ∧ (∀ r, r ∈ artists (canvas w') →
          isDone (obj w' r) (frame_counter (canvas w')) = false)
  ∧ artists (canvas w'') = artists (canvas w')
  ∧ (∀ r, obj w'' r = obj w' r)
  ∧ calls w'' = calls w' ++ drawn_calls w' (artists (canvas w')).
Proof.
  intros Hids w' w''.
  destruct (Canvas_draw_after w Hids)
    as (w1 & Hdraw & Hres & Hobj & Hids' & (Hfc & _) & _).
  assert (w' = w1) as Hw' by (unfold w'; by rewrite Hdraw).
  rewrite <- Hw' in *. clear Hw'.
  assert (Hnot : ∀ r, r ∈ artists (canvas w') →
            visit (frame_counter (canvas w')) (obj w' r) = obj w' r
            ∧ isDone (obj w' r) (frame_counter (canvas w')) = false).
  { intros r Hr. rewrite Hres in Hr.
    apply list_elem_of_filter in Hr as [Hnd Hr].
    rewrite Hobj, bool_decide_eq_true_2, Hfc by done.
    by rewrite visit_visit. }
  destruct (Canvas_draw_after w' Hids')
    as (w2 & Hdraw2 & Hres2 & Hobj2 & _ & _ & Hcalls2).
  assert (w'' = w2) as Hw'' by (unfold w''; by rewrite Hdraw2).
  rewrite <- Hw'' in *. clear Hw''.
  split; [done|]. split; [intros r Hr; by apply Hnot|].
  split; [|split; [|done]].
  - rewrite Hres2. apply filter_all.
    intros r Hr. destruct (Hnot r Hr) as [-> ?]. done.
  - intros r. rewrite Hobj2. case_bool_decide as Hr; [|done].
    by destruct (Hnot r Hr) as [-> _].
Qed.

Lemma Canvas_draw_twice_witness :
  ids_distinct demo_world
  ∧ artists (canvas (Canvas_draw demo_world).2) = [0; 1]%nat
  ∧ artists (canvas (Canvas_draw (Canvas_draw demo_world).2).2)
    = artists (canvas (Canvas_draw demo_world).2).
Proof.
  assert (H : ids_distinct demo_world)
    by (by apply (bool_decide_unpack _); vm_compute).
  split; [exact H|]. split; [by vm_compute|].
  by destruct (Canvas_draw_twice demo_world H) as (_ & _ & Heq & _).
Defined.

(** * Limits *)

Lemma run_limits (os : list op) (w : world) :
  xlims (canvas (run os w)) = xlims (canvas w)
  ∧ ylims (canvas (run os w)) = ylims (canvas w).
Proof.
  revert w. induction os as [|o os IH]; intros w; [done|].
  rewrite run_cons. destruct (IH (exec o w).2) as [-> ->]. apply exec_limits.
Qed.

(** X8. No call changes the limits the canvas was constructed with: after
    any program on a canvas made by [Canvas.__init__], [resetAxes] returns
    normally, clears the axes and sets exactly those limits again, and
    leaves the artists, the managed list and the frame counter as they
    are. *)
Theorem resetAxes_restores_limits (width height : Z) (xl yl : lims)
    (dpi : Z) (h : gmap loc artist) (log : list call) (os : list op) :
  let w := run os (Canvas_init width height xl yl dpi h log) in
  xlims (canvas w) = xl
  ∧ ylims (canvas w) = yl
  ∧ resetAxes w
    = (Ok tt,
       mkWorld (objects w) (canvas w)
         (calls w ++ [ax_clear; ax_set_xlim xl; ax_set_ylim yl])).
Proof.
  intros w.
  destruct (run_limits os (Canvas_init width height xl yl dpi h log))
    as [Hx Hy].
  fold w in Hx, Hy. simpl in Hx, Hy. split; [done|]. split; [done|].
  rewrite <- Hx, <- Hy. reflexivity.
Qed.

(** * [toggle] on any state *)

(** X4. [toggle] on a [ToggledArtist] never raises, whatever the state: it
    sets ['active'] when the state is ['inactive'] and ['inactive'] in every
    other case.  So three calls come to the same as one, two calls give back
    the artist one started from exactly when its state was ['active'] or
    ['inactive'], and an artist in any state other than ['active'] is active
    at no frame.  On an artist of another class every call raises
    [AttributeError]. *)
Theorem toggle_any_state (self : artist) :
  (∀ state, cls self = ToggledArtist_ state →
     toggle self
     = Ok (set_cls (ToggledArtist_ (if String.eqb state "inactive"
                                    then "active" else "inactive")) self)
     ∧ toggles 3 self = toggle self
     ∧ (toggles 2 self = Ok self ↔
        state = "active"%string ∨ state = "inactive"%string)
     ∧ (state ≠ "active"%string → ∀ f, isActive self f = false))
  ∧ ((∀ state, cls self ≠ ToggledArtist_ state) →
     ∀ n, toggles (S n) self = Raise AttributeError).
Proof.
  split.
  - intros state Hcls. destruct self as [i g l d c]. simpl in Hcls. subst c.
    split; [done|]. unfold toggles, toggle, isActive. simpl.
    destruct (String.eqb_spec state "inactive") as [->|Hne]; simpl.
    + split; [done|]. split; [split; [by right|done]|]. by intros _ f.
    + split; [done|]. split.
      * split; [intros [= <-]; by left|].
        intros [-> | ->]; [done|congruence].
      * intros Hna f. by apply String.eqb_neq in Hna as ->.
  - intros Hcls n. simpl. unfold toggle.
    destruct (cls self) eqn:E; try done. by destruct (Hcls state).
Qed.

Lemma toggle_any_state_witness :
  cls sample_odd_toggled = ToggledArtist_ "on"
  ∧ toggles 2 sample_odd_toggled ≠ Ok sample_odd_toggled
  ∧ (∀ state, cls sample_plain ≠ ToggledArtist_ state)
  ∧ toggles 1 sample_plain = Raise AttributeError.
Proof.
  destruct (toggle_any_state sample_odd_toggled) as [H _].
  destruct (H "on"%string eq_refl) as (_ & _ & H2 & _).
  split; [reflexivity|]. split.
  - intros Heq. apply H2 in Heq as [Heq|Heq]; discriminate Heq.
  - assert (Hp : ∀ state, cls sample_plain ≠ ToggledArtist_ state)
      by (intros state; discriminate).
    split; [exact Hp|].
    destruct (toggle_any_state sample_plain) as [_ Hr]. exact (Hr Hp 0%nat).
Defined.

(** * The order of the managed list under every call *)

Lemma layer_kept (w w' : world) (r : loc) :
  world_le w w' → is_Some (objects w !! r) →
  layer (obj w' r) = layer (obj w r).
Proof.
  intros Hle [a Ha]. destruct (le_objects _ _ Hle r a Ha) as (a' & Ha' & Hla).
  rewrite (obj_lookup _ _ _ Ha), (obj_lookup _ _ _ Ha'). symmetry.
  apply Hla.
Qed.

Lemma sorted_kept (w w' : world) (l : list loc) :
  world_le w w' →
  Forall (λ r, is_Some (objects w !! r)) l →
  StronglySorted (by_layer w) l → StronglySorted (by_layer w') l.
Proof.
  intros Hle Hl Hs. induction Hs as [|x l Hs IH Hx]; [constructor|].
  apply Forall_cons in Hl as [Hxa Hl]. constructor; [by apply IH|].
  rewrite Forall_forall in *. intros y Hy. unfold by_layer, key_le.
  rewrite !(layer_kept w w') by auto. by apply Hx.
Qed.

Lemma exec_sorted (o : op) (w : world) :
  wf w → valid_op o w →
  StronglySorted (by_layer w) (artists (canvas w)) →
  StronglySorted (by_layer (exec o w).2) (artists (canvas (exec o w).2)).
Proof.
  intros Hwf Hv Hs.
  pose proof (sorted_kept w (exec o w).2 _ (exec_le o w) Hwf Hs) as Hkept.
  assert (Hsub : ∀ l', l' `sublist_of` artists (canvas w) →
            StronglySorted (by_layer (exec o w).2) l').
  { intros l' Hl'. by eapply StronglySorted_sublist. }
  destruct (Canvas_draw_spec w)
    as (w1 & w' & _ & _ & Hdraw & _ & _ & _ & _ & Hsl & _).
  destruct o; unfold exec in *.
  - exact Hkept.
  - exact Hkept.
  - exact Hkept.
  - revert Hkept. rewrite toggle_unfold.
    by destruct (toggle (obj w artist0)).
  - rewrite addArtistFactory_unfold, addArtist_unfold.
    apply (list_sort_sorted
             (λ r', layer (obj (store (fresh (dom (objects w)))
                                  (init new_id f type) w).2 r'))).
  - rewrite addArtist_unfold.
    apply (list_sort_sorted (λ r', layer (obj w r'))).
  - revert Hsub. rewrite Hdraw. intros Hsub. by apply Hsub.
  - exact Hkept.
  - revert Hsub. rewrite (show_unfold _ _ Hdraw). intros Hsub. by apply Hsub.
  - revert Hsub. rewrite (save_unfold _ _ _ _ _ Hdraw).
    destruct savefig; intros Hsub; by apply Hsub.
Qed.

(** X2. The managed list is in ascending order of layers after every call:
    on a canvas whose list is (a new one's is empty), any program whose
    calls are given existing artists leaves the list in ascending order of
    layers, every managed address that of an existing artist, and the layer
    of every artist as it was. *)
Theorem managed_list_stays_sorted (os : list op) (w : world) :
  wf w →
  StronglySorted (by_layer w) (artists (canvas w)) →
  valid_ops os w →
  let w' := run os w in
  wf w'
  ∧ StronglySorted (by_layer w') (getAllArtists w')
  ∧ (∀ r, is_Some (objects w !! r) → layer (obj w' r) = layer (obj w r)).
Proof.
  revert w. induction os as [|o os IH]; intros w Hwf Hs Hv w'.
  { split; [done|]. split; [done|]. done. }
  destruct Hv as [Hv Hvs]. unfold w'. rewrite run_cons.
  destruct (IH (exec o w).2) as (Hwf' & Hs' & Hl');
    [by apply exec_wf|by apply exec_sorted|done|].
  split; [done|]. split; [done|]. intros r Hr.
  rewrite Hl'.
  - by apply layer_kept; [apply exec_le|].
  - destruct Hr as [a Ha].
    destruct (le_objects _ _ (exec_le o w) r a Ha) as (a' & -> & _). by eexists.
Qed.

Lemma managed_list_stays_sorted_witness :
  wf empty_world
  ∧ StronglySorted (by_layer empty_world) (artists (canvas empty_world))
  ∧ valid_ops sample_program empty_world
  ∧ getAllArtists (run sample_program empty_world) = [3; 0]%nat
  ∧ StronglySorted (by_layer (run sample_program empty_world))
      (getAllArtists (run sample_program empty_world)).
Proof.
  assert (Hwf : wf empty_world) by (vm_compute; constructor).
  assert (Hs : StronglySorted (by_layer empty_world)
                 (artists (canvas empty_world)))
    by (vm_compute; constructor).
  assert (Hv : valid_ops sample_program empty_world).
  { vm_compute. repeat split; by eexists. }
  split; [exact Hwf|]. split; [exact Hs|]. split; [exact Hv|].
  split; [by vm_compute|].
  by destruct (managed_list_stays_sorted sample_program empty_world Hwf Hs Hv)
    as (_ & H & _).
Defined.

(** * Artists over the frames of an animation *)

Lemma ids_distinct_ext (w w' : world) :
  objects w' = objects w → artists (canvas w') = artists (canvas w) →
  ids_distinct w → ids_distinct w'.
Proof. unfold ids_distinct, obj. by intros -> ->. Qed.

(** A call of the canvas other than a registration: either it leaves
    artists and list alone, or it leaves them as [Canvas.draw] does. *)
Lemma frame_op_state (o : op) (w : world) :
  is_frame_op o = true →
  (o = op_resetAxes
   ∧ objects (exec o w).2 = objects w
   ∧ artists (canvas (exec o w).2) = artists (canvas w))
  ∨ (o ≠ op_resetAxes
     ∧ ∃ w1, Canvas_draw w = (Ok tt, w1)
           ∧ objects (exec o w).2 = objects w1
           ∧ artists (canvas (exec o w).2) = artists (canvas w1)).
Proof.
  destruct (Canvas_draw_ok w) as (w1 & Hdraw & _).
  destruct o; try done; intros _.
  - right. split; [done|]. exists w1. simpl. by rewrite Hdraw.
  - by left.
  - right. split; [done|]. exists w1. simpl.
    by rewrite (show_unfold _ _ Hdraw).
  - right. split; [done|]. exists w1. simpl.
    rewrite (save_unfold _ _ _ _ _ Hdraw). by destruct savefig.
Qed.

Lemma pass_frames_head (o : op) (os : list op) (n : Z) :
  is_frame_op o = true → o ≠ op_resetAxes →
  pass_frames (o :: os) n
  = n :: pass_frames os (n + (if save_returns o then 1 else 0)).
Proof.
  destruct o as [| | | | | | | | |folder fname [u|e]]; try done; intros _ _; simpl;
    by rewrite ?Z.add_0_r.
Qed.

(** An artist that a pass at any of the frames to come neither changes nor
    finds done stays managed and unchanged. *)
Lemma frame_ops_keep (os : list op) (w : world) (r : loc) :
  Forall (λ o, is_frame_op o = true) os →
  ids_distinct w →
  r ∈ artists (canvas w) →
  (∀ f, f ∈ pass_frames os (frame_counter (canvas w)) →
        visit f (obj w r) = obj w r ∧ isDone (obj w r) f = false) →
  r ∈ artists (canvas (run os w))
  ∧ obj (run os w) r = obj w r
  ∧ ids_distinct (run os w).
Proof.
  revert w. induction os as [|o os IH]; intros w Hos Hids Hr Hstay; [done|].
  apply Forall_cons in Hos as [Ho Hos]. rewrite run_cons.
  pose proof (exec_frame_counter o w) as Hfc.
  destruct (frame_op_state o w Ho) as [(-> & Hobjs & Harts)|(Hne & w1 & Hdraw & Hobjs & Harts)].
  - assert (Hobj : ∀ r', obj (exec op_resetAxes w).2 r' = obj w r')
      by (intros r'; unfold obj; by rewrite Hobjs).
    assert (H1 : ids_distinct (exec op_resetAxes w).2)
      by by apply (ids_distinct_ext w).
    assert (H2 : r ∈ artists (canvas (exec op_resetAxes w).2))
      by by rewrite Harts.
    destruct (IH (exec op_resetAxes w).2 Hos H1 H2) as (? & Hkeep & ?).
    { intros f Hf. rewrite Hobj. apply Hstay.
      by rewrite Hfc, Z.add_0_r in Hf. }
    by rewrite Hkeep, Hobj.
  - destruct (Canvas_draw_after w Hids)
      as (w1' & Hdraw' & Hres & Hobj1 & Hids1 & _ & _).
    rewrite Hdraw in Hdraw'. injection Hdraw' as <-.
    rewrite pass_frames_head in Hstay by done.
    destruct (Hstay (frame_counter (canvas w))) as [Hv Hd]; [left|].
    assert (Hobj : ∀ r', obj (exec o w).2 r' = obj w1 r')
      by (intros r'; unfold obj; by rewrite Hobjs).
    assert (Hsame : obj (exec o w).2 r = obj w r).
    { by rewrite Hobj, Hobj1, bool_decide_eq_true_2, Hv. }
    assert (H1 : ids_distinct (exec o w).2)
      by by apply (ids_distinct_ext w1).
    assert (H2 : r ∈ artists (canvas (exec o w).2)).
    { rewrite Harts, Hres. apply list_elem_of_filter. by rewrite Hv. }
    destruct (IH (exec o w).2 Hos H1 H2) as (? & Hkeep & ?).
    { intros f Hf. rewrite Hsame. apply Hstay. right. by rewrite Hfc in Hf. }
    by rewrite Hkeep, Hsame.
Qed.

(** An artist that is not managed is out of reach of the passes. *)
Lemma frame_ops_gone (os : list op) (w : world) (r : loc) :
  Forall (λ o, is_frame_op o = true) os →
  r ∉ artists (canvas w) →
  (r ∉ artists (canvas (run os w))) ∧ obj (run os w) r = obj w r.
Proof.
  revert w. induction os as [|o os IH]; intros w Hos Hr; [done|].
  apply Forall_cons in Hos as [Ho Hos]. rewrite run_cons.
  destruct (frame_op_state o w Ho) as [(-> & Hobjs & Harts)|(Hne & w1 & Hdraw & Hobjs & Harts)].
  - assert (H1 : r ∉ artists (canvas (exec op_resetAxes w).2))
      by by rewrite Harts.
    destruct (IH (exec op_resetAxes w).2 Hos H1) as [? Hkeep].
    split; [done|]. rewrite Hkeep. unfold obj. by rewrite Hobjs.
  - destruct (Canvas_draw_spec w)
      as (w0 & w1' & _ & _ & Hdraw' & _ & _ & Hobj0 & (Ho1 & _) & Hsub & _).
    rewrite Hdraw in Hdraw'. injection Hdraw' as <-.
    assert (H1 : r ∉ artists (canvas (exec o w).2)).
    { rewrite Harts. intros Hin. apply Hr. by eapply elem_of_sublist. }
    destruct (IH (exec o w).2 Hos H1) as [? Hkeep].
    split; [done|]. rewrite Hkeep. unfold obj at 1. rewrite Hobjs, Ho1.
    fold (obj w0 r). by rewrite Hobj0, bool_decide_eq_false_2.
Qed.

(** C10. [OneTimeArtist.isActive] does not read [drawn]: drawing changes no
    answer of [isActive], so an artist that is not deactivated is still
    active at [when] after it was drawn, and drawing it again calls the
    callback again; [draw] does not deactivate.  What keeps a one-time
    artist from being drawn again is only that the canvas drops it.  On a
    canvas on which distinct managed artists have distinct ids, the pass of
    [Canvas.draw] at frame [when] draws a managed one-time artist that is
    not deactivated and takes it out of the managed list, because it is done;
    the artist is then still not deactivated and still active at that frame,
    and the later passes leave it alone because it is not managed.  Where
    the canvas does not drop it, it is drawn again: an artist registered
    twice is drawn twice in one pass, and one that stays managed because the
    pass removed another artist with its id is drawn again by the next
    pass. *)
Theorem OneTimeArtist_isActive_ignores_drawn (self : artist) (drawn : bool)
    (when : Z) :
  cls self = OneTimeArtist_ drawn when →
  (∀ d f, isActive (set_cls (OneTimeArtist_ d when) self) f = isActive self f)
  ∧ (∀ f, isActive (draw self).1 f = isActive self f)
  ∧ (deactivated self = false →
     isActive (draw self).1 when = true ∧ isDone (draw self).1 when = true)
  ∧ deactivated (draw self).1 = deactivated self
  ∧ (draw (draw self).1).2 = [invoke (artist_factory self); plt_draw]
  ∧ (∀ (w : world) (r : loc),
       ids_distinct w → r ∈ artists (canvas w) → obj w r = self →
       deactivated self = false → frame_counter (canvas w) = when →
       ∃ w',
         Canvas_draw w = (Ok tt, w')
         ∧ calls w' = calls w ++ drawn_calls w (artists (canvas w))
         ∧ invoke (artist_factory self) ∈ drawn_calls w (artists (canvas w))
         ∧ obj w' r = (draw self).1
         ∧ deactivated (obj w' r) = false
         ∧ isActive (obj w' r) (frame_counter (canvas w')) = true
         ∧ (r ∉ artists (canvas w'))
         ∧ ∀ os, Forall (λ o, is_frame_op o = true) os →
             (r ∉ artists (canvas (run os w')))
             ∧ obj (run os w') r = obj w' r
             ∧ isActive (obj (run os w') r) when = true)
  ∧ (artists (canvas twice_world) = [0; 0]%nat
     ∧ (Canvas_draw twice_world).1 = Ok tt
     ∧ calls (Canvas_draw twice_world).2
       = calls twice_world
         ++ [invoke "flash"; plt_draw; invoke "flash"; plt_draw])
  ∧ (artists (canvas collision_world) = [0; 1]%nat
     ∧ frame_counter (canvas collision_world) = 1
     ∧ obj collision_world 1%nat
       = init "qwertyuiop" "flash" (new_OneTimeArtist 1 0)
     ∧ artists (canvas (Canvas_draw collision_world).2) = [1%nat]
     ∧ cls (obj (Canvas_draw collision_world).2 1%nat) = OneTimeArtist_ true 1
     ∧ calls (Canvas_draw (Canvas_draw collision_world).2).2
       = calls collision_world
         ++ [invoke "diag"; plt_draw; invoke "flash"; plt_draw;
             invoke "flash"; plt_draw]).
Proof.
  intros Hcls.
  assert (Hsame : ∀ f, isActive (draw self).1 f = isActive self f).
  { intros f. unfold isActive, draw. by rewrite Hcls. }
  assert (Hdone : ∀ f, isDone (draw self).1 f = true).
  { intros f. unfold isDone, draw. by rewrite Hcls. }
  assert (Hact : deactivated self = false → isActive self when = true).
  { intros Hd. unfold isActive. by rewrite Hcls, Hd, Z.eqb_refl. }
  split; [intros d f; unfold isActive; simpl; by rewrite Hcls|].
  split; [done|]. split; [intros Hd; by rewrite Hsame, Hact|].
  split; [unfold draw; by rewrite Hcls|].
  split; [unfold draw; by rewrite Hcls|].
  split; [|split; by vm_compute].
  intros w r Hids Hr Hself Hd Hfc.
  destruct (Canvas_draw_spec w)
    as (w1 & w' & _ & _ & Hdraw & Hc & Hcalls & Hobj & (Ho & Hcs & Hfr) & _ & Hres).
  rewrite Hfc in Hobj, Hres. specialize (Hres Hids).
  assert (Hvisit : visit when (obj w r) = (draw self).1).
  { unfold visit. by rewrite Hself, Hact. }
  assert (Hobj' : obj w' r = (draw self).1).
  { unfold obj at 1. rewrite Ho. fold (obj w1 r).
    by rewrite Hobj, bool_decide_eq_true_2, Hvisit. }
  assert (Hfc' : frame_counter (canvas w') = when).
  { destruct Hfr as (-> & _). by rewrite Hc. }
  assert (Hgone : r ∉ artists (canvas w')).
  { rewrite Hres. intros [H _]%list_elem_of_filter.
    rewrite Hvisit, Hdone in H. done. }
  exists w'. split; [done|]. split; [congruence|]. split.
  { unfold drawn_calls. apply list_elem_of_In, in_flat_map. exists r.
    split; [|rewrite Hself; by left].
    apply list_elem_of_In, list_elem_of_filter.
    split; [|done]. rewrite Hself, Hfc. by apply Hact. }
  split; [done|]. rewrite Hobj', Hfc', Hsame.
  split; [unfold draw; by rewrite Hcls|]. split; [by apply Hact|].
  split; [done|]. intros os Hos.
  destruct (frame_ops_gone os w' r Hos Hgone) as [Hgone' Hkeep].
  split; [done|]. rewrite Hkeep, Hobj', Hsame. split; [done|by apply Hact].
Qed.

Lemma OneTimeArtist_isActive_ignores_drawn_witness :
  cls sample_onetime = OneTimeArtist_ false 1
  ∧ deactivated sample_onetime = false
  ∧ isActive (draw sample_onetime).1 1 = true
  ∧ ids_distinct demo_world
  ∧ obj demo_world 2%nat = sample_onetime
  ∧ frame_counter (canvas demo_world) = 1
  ∧ (2%nat ∉ artists (canvas (Canvas_draw demo_world).2))
  ∧ isActive (obj (Canvas_draw demo_world).2 2%nat) 1 = true.
Proof.
  assert (Hids : ids_distinct demo_world)
    by (by apply (bool_decide_unpack _); vm_compute).
  assert (Hr : 2%nat ∈ artists (canvas demo_world))
    by (by apply (bool_decide_unpack _); vm_compute).
  assert (Hobj : obj demo_world 2%nat = sample_onetime) by by vm_compute.
  assert (Hfc : frame_counter (canvas demo_world) = 1) by by vm_compute.
  destruct (OneTimeArtist_isActive_ignores_drawn sample_onetime false 1 eq_refl)
    as (_ & _ & H & _ & _ & Hpass & _).
  split; [reflexivity|]. split; [reflexivity|].
  split; [apply H; reflexivity|].
  split; [exact Hids|]. split; [exact Hobj|]. split; [exact Hfc|].
  destruct (Hpass demo_world 2%nat Hids Hr Hobj eq_refl Hfc)
    as (w' & Hdraw & _ & _ & _ & _ & Hactive & Hgone & _).
  rewrite Hdraw. simpl. split; [exact Hgone|].
  assert (Hfc' : frame_counter (canvas w') = 1).
  { replace w' with (Canvas_draw demo_world).2 by by rewrite Hdraw.
    by vm_compute. }
  by rewrite Hfc' in Hactive.
Defined.

Lemma saves_frame_ops (os : list op) :
  Forall (λ o, save_returns o = true) os → Forall (λ o, is_frame_op o = true) os.
Proof. intros H. eapply Forall_impl; [exact H|]. by intros []. Qed.

Lemma pass_frames_saves (os : list op) (n f : Z) :
  Forall (λ o, save_returns o = true) os →
  f ∈ pass_frames os n → n ≤ f < n + Z.of_nat (length os).
Proof.
  intros Hos. revert n. induction Hos as [|o os Ho Hos IH]; intros n.
  { by intros ?%elem_of_nil. }
  destruct o as [| | | | | | | | |folder fname [u|e]]; try done. simpl pass_frames.
  intros [->|Hf%IH]%elem_of_cons; simpl length; lia.
Qed.

Lemma pass_frames_ge (os : list op) (n f : Z) :
  f ∈ pass_frames os n → n ≤ f.
Proof.
  revert n. induction os as [|o os IH]; intros n; [by intros ?%elem_of_nil|].
  destruct o as [| | | | | | | | |folder fname [u|e]]; simpl; try apply IH;
    intros [->|Hf%IH]%elem_of_cons; lia.
Qed.

Lemma saves_frame_counter (os : list op) (w : world) :
  Forall (λ o, save_returns o = true) os →
  frame_counter (canvas (run os w))
  = frame_counter (canvas w) + Z.of_nat (length os).
Proof.
  intros Hos. rewrite run_frame_counter, length_saved_by. do 3 f_equal.
  induction Hos as [|o os Ho Hos IH]; [done|].
  rewrite filter_cons, decide_True by by rewrite Ho. by f_equal.
Qed.

(** Saves up to a frame at which the artist is done after its visit. *)
Lemma saves_remove (os : list op) (w : world) (r : loc) (j : nat) :
  Forall (λ o, save_returns o = true) os →
  ids_distinct w →
  r ∈ artists (canvas w) →
  (j < length os)%nat →
  let fc := frame_counter (canvas w) in
  (∀ f, fc ≤ f < fc + Z.of_nat j →
        visit f (obj w r) = obj w r ∧ isDone (obj w r) f = false) →
  isDone (visit (fc + Z.of_nat j) (obj w r)) (fc + Z.of_nat j) = true →
  (r ∉ artists (canvas (run os w)))
  ∧ obj (run os w) r = visit (fc + Z.of_nat j) (obj w r).
Proof.
  intros Hos Hids Hr Hj fc Hstay Hdone.
  rewrite <- (take_drop j os), run_app.
  assert (Hos1 : Forall (λ o, save_returns o = true) (take j os))
    by by apply Forall_take.
  assert (Hos2 : Forall (λ o, save_returns o = true) (drop j os))
    by by apply Forall_drop.
  assert (Hlen : length (take j os) = j) by (rewrite length_take; lia).
  destruct (frame_ops_keep (take j os) w r) as (Hr1 & Hobj1 & Hids1);
    [by apply saves_frame_ops|done|done| |].
  { intros f Hf%pass_frames_saves; [|done]. apply Hstay. fold fc in Hf. lia. }
  pose proof (saves_frame_counter (take j os) w Hos1) as Hfc1.
  rewrite Hlen in Hfc1. fold fc in Hfc1.
  set (w1 := run (take j os) w) in *.
  destruct (drop j os) as [|o os2] eqn:Edrop.
  { apply (f_equal length) in Edrop. rewrite length_drop in Edrop.
    simpl in Edrop. lia. }
  apply Forall_cons in Hos2 as [Ho Hos2]. rewrite run_cons.
  destruct (frame_op_state o w1) as [(-> & _)|(_ & wd & Hdraw & Hobjs & Harts)];
    [by destruct o|done|].
  destruct (Canvas_draw_after w1 Hids1)
    as (wd' & Hdraw' & Hres & Hobjd & _).
  rewrite Hdraw in Hdraw'. injection Hdraw' as <-.
  rewrite Hfc1 in Hres.
  assert (Hgone : r ∉ artists (canvas (exec o w1).2)).
  { rewrite Harts, Hres. intros [Hnd _]%list_elem_of_filter.
    rewrite Hobj1 in Hnd. congruence. }
  destruct (frame_ops_gone os2 (exec o w1).2 r) as [Hnot Hobj2];
    [by apply saves_frame_ops|done|].
  split; [done|]. rewrite Hobj2. unfold obj at 1. rewrite Hobjs.
  fold (obj wd r). by rewrite Hobjd, bool_decide_eq_true_2, Hfc1, Hobj1.
Qed.

Lemma visit_not_onetime (f : Z) (a : artist) :
  (∀ drawn when, cls a ≠ OneTimeArtist_ drawn when) → visit f a = a.
Proof.
  intros Hc. unfold visit, draw. destruct (isActive a f); [|done].
  destruct (cls a) eqn:E; try done. by destruct (Hc drawn when).
Qed.

(** X10. The frames of a [TimedArtist].  Take a canvas on which distinct
    managed artists have distinct ids and a managed timed artist with window
    [start, end_] that is not deactivated, and let the program be [k] calls
    of [save] in each of which [savefig] returns, so that the counter ends
    [k] further.  As long as the frame counter has not passed [end_ + 1],
    the artist is still managed and unchanged, and [getActiveArtists] lists
    it exactly when the counter is in the window.  Once a [save] has run at
    a frame after [end_], the artist is no longer managed. *)
Theorem TimedArtist_lifetime (os : list op) (w : world) (r : loc)
    (start end_ : Z) :
  ids_distinct w →
  r ∈ artists (canvas w) →
  cls (obj w r) = TimedArtist_ start end_ →
  deactivated (obj w r) = false →
  Forall (λ o, save_returns o = true) os →
  let fc := frame_counter (canvas w) in
  let k := Z.of_nat (length os) in
  let w' := run os w in
  frame_counter (canvas w') = fc + k
  ∧ (fc + k ≤ end_ + 1 →
     r ∈ artists (canvas w')
     ∧ obj w' r = obj w r
     ∧ (r ∈ getActiveArtists w' ↔ start ≤ fc + k ≤ end_))
  ∧ (0 < k → end_ + 1 < fc + k → r ∉ artists (canvas w')).
Proof.
  intros Hids Hr Hcls Hd Hos fc k w'.
  assert (Hv : ∀ f, visit f (obj w r) = obj w r).
  { intros f. apply visit_not_onetime. intros ? ?. by rewrite Hcls. }
  assert (Hdone : ∀ f, isDone (obj w r) f = (f >? end_)).
  { intros f. unfold isDone. rewrite Hcls, Hd. simpl. apply orb_false_r. }
  pose proof (saves_frame_counter os w Hos) as Hfc. fold fc k w' in Hfc.
  split; [done|]. split.
  - intros Hk.
    destruct (frame_ops_keep os w r) as (Hr' & Hobj' & _);
      [by apply saves_frame_ops|done|done| |].
    { intros f Hf%pass_frames_saves; [|done]. fold fc k in Hf.
      split; [apply Hv|]. rewrite Hdone. rewrite Z.gtb_ltb. apply Z.ltb_ge. lia. }
    fold w' in Hr', Hobj'. split; [done|]. split; [done|].
    unfold getActiveArtists. rewrite list_elem_of_filter, Hobj', Hfc.
    unfold isActive. rewrite Hcls, Hd. simpl. rewrite andb_true_r.
    rewrite andb_true_iff, Z.geb_leb, !Z.leb_le. tauto.
  - intros Hk Hlate.
    destruct (saves_remove os w r (Z.to_nat (Z.max 0 (end_ + 1 - fc))))
      as [Hgone _]; try done.
    + fold k in Hk, Hlate. lia.
    + intros f Hf. fold fc in Hf. split; [apply Hv|]. rewrite Hdone.
      rewrite Z.gtb_ltb. apply Z.ltb_ge. lia.
    + fold fc. rewrite Hv, Hdone. rewrite Z.gtb_ltb. apply Z.ltb_lt. lia.
Qed.

Lemma TimedArtist_lifetime_witness :
  ids_distinct lifetime_world
  ∧ artists (canvas lifetime_world) = [0; 1; 2; 3]%nat
  ∧ cls (obj lifetime_world 1%nat) = TimedArtist_ 2 3
  ∧ (1%nat ∈ getActiveArtists
       (run (replicate 2 (op_save "out" "f" (Ok tt))) lifetime_world))
  ∧ (1%nat ∉ artists (canvas
       (run (replicate 4 (op_save "out" "f" (Ok tt))) lifetime_world))).
Proof.
  assert (Hids : ids_distinct lifetime_world)
    by (by apply (bool_decide_unpack _); vm_compute).
  assert (Hr : 1%nat ∈ artists (canvas lifetime_world))
    by (by apply (bool_decide_unpack _); vm_compute).
  assert (Hos : ∀ n, Forall (λ o, save_returns o = true)
                       (replicate n (op_save "out" "f" (Ok tt))))
    by (intros n; by apply Forall_replicate).
  split; [exact Hids|]. split; [by vm_compute|]. split; [by vm_compute|].
  split.
  - destruct (TimedArtist_lifetime (replicate 2 (op_save "out" "f" (Ok tt)))
                lifetime_world 1%nat 2 3 Hids Hr eq_refl eq_refl (Hos 2%nat))
      as (_ & H & _).
    apply H; vm_compute; [discriminate|split; discriminate].
  - destruct (TimedArtist_lifetime (replicate 4 (op_save "out" "f" (Ok tt)))
                lifetime_world 1%nat 2 3 Hids Hr eq_refl eq_refl (Hos 4%nat))
      as (_ & _ & H).
    apply H; by vm_compute.
Defined.

Lemma OneTimeArtist_waits (a : artist) (when f : Z) :
  cls a = OneTimeArtist_ false when → deactivated a = false → f ≠ when →
  visit f a = a ∧ isDone a f = false.
Proof.
  intros Hcls Hd Hf. unfold visit, isActive, isDone. rewrite Hcls, Hd. simpl.
  by apply Z.eqb_neq in Hf as ->.
Qed.

(** X11. The frames of a [OneTimeArtist].  Take a canvas on which distinct
    managed artists have distinct ids and a managed one-time artist, not yet
    drawn and not deactivated, that is due at frame [when], not before the
    current frame; let the program be [k] calls of [save] in each of which
    [savefig] returns.  Until the
    counter has passed [when] the artist is managed and not drawn, and
    [getActiveArtists] lists it exactly when the counter is [when].  Once
    the [save] of frame [when] has run, the artist has been drawn, with
    [drawn] set, and is no longer managed, so that no later pass draws it
    again. *)
Theorem OneTimeArtist_lifetime (os : list op) (w : world) (r : loc)
    (when : Z) :
  ids_distinct w →
  r ∈ artists (canvas w) →
  cls (obj w r) = OneTimeArtist_ false when →
  deactivated (obj w r) = false →
  Forall (λ o, save_returns o = true) os →
  let fc := frame_counter (canvas w) in
  let k := Z.of_nat (length os) in
  let w' := run os w in
  fc ≤ when →
  (fc + k ≤ when →
   r ∈ artists (canvas w')
   ∧ obj w' r = obj w r
   ∧ (r ∈ getActiveArtists w' ↔ fc + k = when))
  ∧ (when < fc + k →
     (r ∉ artists (canvas w'))
     ∧ obj w' r = (draw (obj w r)).1
     ∧ cls (obj w' r) = OneTimeArtist_ true when).
Proof.
  intros Hids Hr Hcls Hd Hos fc k w' Hfuture.
  pose proof (saves_frame_counter os w Hos) as Hfc. fold fc k w' in Hfc.
  split.
  - intros Hk.
    destruct (frame_ops_keep os w r) as (Hr' & Hobj' & _);
      [by apply saves_frame_ops|done|done| |].
    { intros f Hf%pass_frames_saves; [|done]. fold fc k in Hf.
      apply (OneTimeArtist_waits _ when); [done..|lia]. }
    fold w' in Hr', Hobj'. split; [done|]. split; [done|].
    unfold getActiveArtists. rewrite list_elem_of_filter, Hobj', Hfc.
    unfold isActive. rewrite Hcls, Hd. simpl. rewrite andb_true_r, Z.eqb_eq.
    tauto.
  - intros Hlate.
    assert (Hvisit : visit when (obj w r) = (draw (obj w r)).1).
    { unfold visit, isActive. by rewrite Hcls, Hd, Z.eqb_refl. }
    assert (Hdrawn : cls (draw (obj w r)).1 = OneTimeArtist_ true when).
    { unfold draw. by rewrite Hcls. }
    destruct (saves_remove os w r (Z.to_nat (when - fc))) as [Hgone Hobj'];
      try done.
    + fold k in Hlate. lia.
    + intros f Hf. fold fc in Hf.
      apply (OneTimeArtist_waits _ when); [done..|lia].
    + fold fc. replace (fc + Z.of_nat (Z.to_nat (when - fc))) with when by lia.
      rewrite Hvisit. unfold isDone. by rewrite Hdrawn.
    + fold fc w' in Hobj'.
      replace (fc + Z.of_nat (Z.to_nat (when - fc))) with when in Hobj' by lia.
      rewrite Hobj', Hvisit. done.
Qed.

Lemma OneTimeArtist_lifetime_witness :
  ids_distinct lifetime_world
  ∧ cls (obj lifetime_world 2%nat) = OneTimeArtist_ false 3
  ∧ frame_counter (canvas lifetime_world) = 1
  ∧ (2%nat ∈ getActiveArtists
       (run (replicate 2 (op_save "out" "f" (Ok tt))) lifetime_world))
  ∧ (2%nat ∉ artists (canvas
       (run (replicate 3 (op_save "out" "f" (Ok tt))) lifetime_world))).
Proof.
  assert (Hids : ids_distinct lifetime_world)
    by (by apply (bool_decide_unpack _); vm_compute).
  assert (Hr : 2%nat ∈ artists (canvas lifetime_world))
    by (by apply (bool_decide_unpack _); vm_compute).
  assert (Hos : ∀ n, Forall (λ o, save_returns o = true)
                       (replicate n (op_save "out" "f" (Ok tt))))
    by (intros n; by apply Forall_replicate).
  assert (Hfut : frame_counter (canvas lifetime_world) ≤ 3)
    by (vm_compute; discriminate).
  split; [exact Hids|]. split; [by vm_compute|]. split; [by vm_compute|].
  split.
  - destruct (OneTimeArtist_lifetime (replicate 2 (op_save "out" "f" (Ok tt)))
                lifetime_world 2%nat 3 Hids Hr eq_refl eq_refl (Hos 2%nat)
                Hfut) as [H _].
    apply H; by vm_compute.
  - destruct (OneTimeArtist_lifetime (replicate 3 (op_save "out" "f" (Ok tt)))
                lifetime_world 2%nat 3 Hids Hr eq_refl eq_refl (Hos 3%nat)
                Hfut) as [_ H].
    apply H. by vm_compute.
Defined.

(** X9. A [OneTimeArtist] that is due at a frame already past, as one
    constructed with the default [when = 0] is on any canvas that started at
    frame 1, is never drawn and never removed: on a canvas on which distinct
    managed artists have distinct ids, after any sequence of calls of
    [Canvas.draw], [show], [save] and [resetAxes] it is still managed,
    unchanged and not drawn, and [getActiveArtists] does not list it. *)
Theorem stale_OneTimeArtist_stays (os : list op) (w : world) (r : loc)
    (when : Z) :
  ids_distinct w →
  r ∈ artists (canvas w) →
  cls (obj w r) = OneTimeArtist_ false when →
  deactivated (obj w r) = false →
  when < frame_counter (canvas w) →
  Forall (λ o, is_frame_op o = true) os →
  let w' := run os w in
  r ∈ artists (canvas w')
  ∧ obj w' r = obj w r
  ∧ (r ∉ getActiveArtists w')
  ∧ isDone (obj w' r) (frame_counter (canvas w')) = false.
Proof.
  intros Hids Hr Hcls Hd Hpast Hos w'.
  destruct (frame_ops_keep os w r) as (Hr' & Hobj' & _); try done.
  { intros f Hf%pass_frames_ge.
    apply (OneTimeArtist_waits _ when); [done..|lia]. }
  fold w' in Hr', Hobj'. split; [done|]. split; [done|].
  assert (Hfc : frame_counter (canvas w) ≤ frame_counter (canvas w'))
    by apply (run_le os w).
  rewrite Hobj'. split.
  - unfold getActiveArtists. rewrite list_elem_of_filter, Hobj'.
    unfold isActive. rewrite Hcls, Hd. simpl. rewrite andb_true_r, Z.eqb_eq.
    intros [? _]. lia.
  - unfold isDone. by rewrite Hcls, Hd.
Qed.

Lemma stale_OneTimeArtist_stays_witness :
  ids_distinct lifetime_world
  ∧ cls (obj lifetime_world 3%nat) = OneTimeArtist_ false 0
  ∧ frame_counter (canvas lifetime_world) = 1
  ∧ 3%nat ∈ artists (canvas
      (run (op_show :: replicate 5 (op_save "out" "f" (Ok tt))) lifetime_world)).
Proof.
  assert (Hids : ids_distinct lifetime_world)
    by (by apply (bool_decide_unpack _); vm_compute).
  assert (Hr : 3%nat ∈ artists (canvas lifetime_world))
    by (by apply (bool_decide_unpack _); vm_compute).
  assert (Hos : Forall (λ o, is_frame_op o = true)
                  (op_show :: replicate 5 (op_save "out" "f" (Ok tt))))
    by (by apply (bool_decide_unpack _); vm_compute).
  assert (Hpast : 0 < frame_counter (canvas lifetime_world))
    by by vm_compute.
  split; [exact Hids|]. split; [by vm_compute|]. split; [by vm_compute|].
  by destruct (stale_OneTimeArtist_stays _ lifetime_world 3%nat 0 Hids Hr
                 eq_refl eq_refl Hpast Hos) as [H _].
Defined.

(** * Ids that stay distinct *)

Lemma dom_insert_old (h : gmap loc artist) (r : loc) (a : artist) :
  is_Some (h !! r) → dom (<[r := a]> h) = dom h ∪ ∅.
Proof.
  intros Hr%elem_of_dom. rewrite dom_insert_L, (right_id_L ∅ (∪)).
  by apply subseteq_union_1_L, singleton_subseteq_l.
Qed.

Lemma dom_insert_new (h : gmap loc artist) (r : loc) (a : artist) :
  dom (<[r := a]> h) = dom h ∪ {[r]}.
Proof. rewrite dom_insert_L. apply (comm_L (∪)). Qed.

Lemma draw_loop_dom (l up : list loc) (w : world) :
  Forall (λ r, is_Some (objects w !! r)) l →
  dom (objects (draw_loop l up w).2) = dom (objects w).
Proof.
  revert up w. induction l as [|r l IH]; intros up w Hl; [done|].
  apply Forall_cons in Hl as [Hr Hl]. rewrite draw_loop_cons. cbv zeta.
  destruct (isActive (obj w r) (frame_counter (canvas w))); [|by apply IH].
  rewrite IH; simpl.
  - by rewrite dom_insert_old, (right_id_L ∅ (∪)).
  - eapply Forall_impl; [exact Hl|]. intros r' [a Ha].
    destruct (decide (r' = r)) as [->|Hne].
    + rewrite lookup_insert_eq. by eexists.
    + rewrite lookup_insert_ne by done. by eexists.
Qed.

Lemma Canvas_draw_dom (w : world) :
  wf w → dom (objects (Canvas_draw w).2) = dom (objects w).
Proof.
  intros Hwf.
  destruct (Canvas_draw_spec w)
    as (w1 & w' & Hloop & _ & Hdraw & _ & _ & _ & (Ho & _) & _).
  rewrite Hdraw. simpl. rewrite Ho.
  pose proof (draw_loop_dom (artists (canvas w)) [] w Hwf) as Hdom.
  by rewrite Hloop in Hdom.
Qed.

Lemma exec_dom (o : op) (w : world) :
  wf w → valid_op o w →
  dom (objects (exec o w).2) = dom (objects w) ∪ created o w.
Proof.
  intros Hwf Hv. pose proof (Canvas_draw_dom w Hwf) as Hdom.
  destruct (Canvas_draw_ok w) as (w1 & Hdraw & _).
  rewrite Hdraw in Hdom. simpl in Hdom.
  destruct o; unfold exec, created.
  - simpl. apply dom_insert_new.
  - simpl. by apply dom_insert_old.
  - simpl. by apply dom_insert_old.
  - rewrite toggle_unfold. destruct (toggle (obj w artist0)); simpl.
    + by apply dom_insert_old.
    + by rewrite (right_id_L ∅ (∪)).
  - rewrite addArtistFactory_unfold, addArtist_unfold. simpl.
    apply dom_insert_new.
  - rewrite addArtist_unfold. simpl. by rewrite (right_id_L ∅ (∪)).
  - rewrite Hdraw. simpl. by rewrite Hdom, (right_id_L ∅ (∪)).
  - simpl. by rewrite (right_id_L ∅ (∪)).
  - rewrite (show_unfold _ _ Hdraw). simpl.
    by rewrite Hdom, (right_id_L ∅ (∪)).
  - rewrite (save_unfold _ _ _ _ _ Hdraw).
    destruct savefig; simpl; by rewrite Hdom, (right_id_L ∅ (∪)).
Qed.

(** Where an object of the next store comes from. *)
Lemma exec_origin (o : op) (w : world) (r : loc) (a' : artist) :
  wf w → valid_op o w → fresh_id o w →
  objects (exec o w).2 !! r = Some a' →
  (∃ a, objects w !! r = Some a ∧ id a = id a')
  ∨ (objects w !! r = None ∧ r = fresh (dom (objects w))
     ∧ map_Forall (λ _ a, id a ≠ id a') (objects w)).
Proof.
  intros Hwf Hv Hfresh Ha'.
  assert (Hin : r ∈ dom (objects (exec o w).2)) by (apply elem_of_dom; eauto).
  rewrite exec_dom in Hin by done.
  apply elem_of_union in Hin as [Hold|Hnew].
  - left. apply elem_of_dom in Hold as [a Ha]. exists a. split; [done|].
    destruct (le_objects _ _ (exec_le o w) r a Ha) as (a'' & Ha'' & Hle).
    rewrite Ha' in Ha''. injection Ha'' as <-. apply Hle.
  - right.
    assert (Hnone : objects w !! fresh (dom (objects w)) = None)
      by apply not_elem_of_dom, is_fresh.
    destruct o; unfold created in Hnew; try (by apply elem_of_empty in Hnew);
      apply elem_of_singleton in Hnew as ->; (split; [done|]);
      (split; [done|]).
    + simpl in Ha'. rewrite lookup_insert_eq in Ha'. injection Ha' as <-.
      by destruct type.
    + simpl in Ha'. rewrite lookup_insert_eq in Ha'. injection Ha' as <-.
      by destruct type.
Qed.

Lemma exec_store_ids (o : op) (w : world) :
  wf w → valid_op o w → fresh_id o w →
  store_ids_distinct w → store_ids_distinct (exec o w).2.
Proof.
  intros Hwf Hv Hfresh Hids r1 r2 a1 a2 H1 H2 Hid.
  destruct (exec_origin o w r1 a1 Hwf Hv Hfresh H1)
    as [(b1 & Hb1 & Hi1)|(_ & -> & Hn1)],
     (exec_origin o w r2 a2 Hwf Hv Hfresh H2)
    as [(b2 & Hb2 & Hi2)|(_ & -> & Hn2)]; [|exfalso..|done].
  - apply (Hids r1 r2 b1 b2); congruence.
  - apply (Hn2 r1 b1 Hb1). congruence.
  - apply (Hn1 r2 b2 Hb2). congruence.
Qed.

Lemma store_ids_distinct_managed (w : world) :
  wf w → store_ids_distinct w → ids_distinct w.
Proof.
  intros Hwf Hids. apply ids_distinct_inj. intros r1 r2 H1 H2 Hid.
  unfold wf in Hwf. rewrite Forall_forall in Hwf.
  destruct (Hwf r1 H1) as [a1 Ha1], (Hwf r2 H2) as [a2 Ha2].
  rewrite (obj_lookup _ _ _ Ha1), (obj_lookup _ _ _ Ha2) in Hid.
  by apply (Hids r1 r2 a1 a2).
Qed.

(** X12. Ids stay distinct as long as fresh ones are drawn.  On a
    well-formed world in which no two artists have one id, after any program
    whose calls are given existing artists and whose constructor calls each
    draw an id no existing artist has, still no two artists have one id, and
    distinct managed artists have distinct ids, which is what exact removal
    by [Canvas.draw] needs.  No call changes the id of an artist. *)
Theorem ids_stay_distinct (os : list op) (w : world) :
  wf w →
  store_ids_distinct w →
  valid_ops os w →
  fresh_ids os w →
  let w' := run os w in
  wf w'
  ∧ store_ids_distinct w'
  ∧ ids_distinct w'
  ∧ (∀ r a, objects w !! r = Some a → id (obj w' r) = id a).
Proof.
  revert w. induction os as [|o os IH]; intros w Hwf Hids Hv Hf w'.
  { split; [done|]. split; [done|].
    split; [by apply store_ids_distinct_managed|].
    intros r a Ha. unfold w'. simpl. by rewrite (obj_lookup _ _ _ Ha). }
  destruct Hv as [Hv Hvs], Hf as [Hf Hfs]. unfold w'. rewrite run_cons.
  destruct (IH (exec o w).2) as (Hwf' & Hids' & Hm' & Hid');
    [by apply exec_wf|by apply exec_store_ids|done|done|].
  split; [done|]. split; [done|]. split; [done|].
  intros r a Ha.
  destruct (le_objects _ _ (exec_le o w) r a Ha) as (a' & Ha' & Hle).
  rewrite (Hid' r a' Ha'). symmetry. apply Hle.
Qed.

Lemma ids_stay_distinct_witness :
  wf empty_world
  ∧ store_ids_distinct empty_world
  ∧ valid_ops sample_program empty_world
  ∧ fresh_ids sample_program empty_world
  ∧ ids_distinct (run sample_program empty_world).
Proof.
  assert (Hwf : wf empty_world) by (vm_compute; constructor).
  assert (Hids : store_ids_distinct empty_world).
  { intros r1 r2 a1 a2 H1. vm_compute in H1. discriminate H1. }
  assert (Hv : valid_ops sample_program empty_world)
    by (by apply (bool_decide_unpack _); vm_compute).
  assert (Hf : fresh_ids sample_program empty_world)
    by (by apply (bool_decide_unpack _); vm_compute).
  split; [exact Hwf|]. split; [exact Hids|]. split; [exact Hv|].
  split; [exact Hf|].
  by destruct (ids_stay_distinct sample_program empty_world Hwf Hids Hv Hf)
    as (_ & _ & H & _).
Defined.

(** * String forms *)

Lemma string_cons_app (c : ascii) (s t : string) :
  String c s +:+ t = String c (s +:+ t).
Proof. reflexivity. Qed.

(** X13. The string form of an artist begins with the name of its class:
    two artists with the same string form are instances of the same class,
    and two plain [Artist]s with the same string form have the same id.  The
    strings [getActiveArtists(asString=True)] returns are a part, in the
    same order, of those [getAllArtists(asString=True)] returns, which has
    one string for every managed artist. *)
Theorem str_shows_class (a b : artist) :
  (__str__ a = __str__ b → same_class a b)
  ∧ (__str__ a = __str__ b → cls a = Artist_ → id a = id b)
  ∧ (∀ w, getActiveArtists_asString w `sublist_of` getAllArtists_asString w)
  ∧ (∀ w, length (getAllArtists_asString w) = length (getAllArtists w)).
Proof.
  assert (Hclass : __str__ a = __str__ b → same_class a b).
  { unfold __str__, same_class.
    destruct (cls a), (cls b); try done; rewrite !string_cons_app;
      intros H; discriminate H. }
  split; [done|]. split; [|split].
  - intros Heq Ha. pose proof (Hclass Heq) as Hc.
    unfold same_class in Hc. unfold __str__ in Heq. rewrite Ha in Heq, Hc.
    destruct (cls b); try done. by apply (inj (String.app "Artist: ")) in Heq.
  - intros w. apply fmap_sublist, sublist_filter.
  - intros w. apply length_fmap.
Qed.

Lemma str_shows_class_witness :
  __str__ sample_plain = "Artist: asdfghjklz"%string
  ∧ __str__ (init "asdfghjklz" "other" (new_Artist 7)) = __str__ sample_plain
  ∧ id (init "asdfghjklz" "other" (new_Artist 7)) = id sample_plain.
Proof.
  assert (H : __str__ (init "asdfghjklz" "other" (new_Artist 7))
              = __str__ sample_plain) by reflexivity.
  split; [reflexivity|]. split; [exact H|].
  destruct (str_shows_class (init "asdfghjklz" "other" (new_Artist 7))
              sample_plain) as (_ & Hid & _).
  apply Hid; [exact H|reflexivity].
Defined.

(** * What changes the managed list *)

(** X14. Only registrations add to the managed list, one entry each, also
    for an artist that is managed already; [Canvas.draw], [show] and [save]
    only take entries out, keeping the order of the others; every other
    call leaves the list as it is. *)
Theorem managed_list_changes (o : op) (w : world) :
  let w' := (exec o w).2 in
  match o with
  | op_addArtist r => getAllArtists w' ≡ₚ getAllArtists w ++ [r]
  | op_addArtistFactory _ _ _ =>
      getAllArtists w' ≡ₚ getAllArtists w ++ [fresh (dom (objects w))]
  | op_Canvas_draw | op_show | op_save _ _ _ =>
      getAllArtists w' `sublist_of` getAllArtists w
  | _ => getAllArtists w' = getAllArtists w
  end.
Proof.
  destruct (Canvas_draw_spec w)
    as (w1 & w' & _ & _ & Hdraw & _ & _ & _ & _ & Hsub & _).
  destruct o; unfold exec; cbv zeta; try done.
  - rewrite toggle_unfold. by destruct (toggle (obj w artist0)).
  - rewrite addArtistFactory_unfold, addArtist_unfold. apply list_sort_perm.
  - rewrite addArtist_unfold. apply list_sort_perm.
  - by rewrite Hdraw.
  - by rewrite (show_unfold _ _ Hdraw).
  - rewrite (save_unfold _ _ _ _ _ Hdraw). by destruct savefig.
Qed.

(** X15. Deactivating is removing at the next pass.  On a canvas on which
    distinct managed artists have distinct ids, once [deactivate] has been
    called on a managed artist of any class, [getActiveArtists] does not
    list it, and the next call of [Canvas.draw], [show] or [save] takes it
    out of the managed list without drawing it. *)
Theorem deactivated_removed_by_next_pass (w : world) (r : loc) (o : op) :
  ids_distinct w →
  r ∈ artists (canvas w) →
  is_frame_op o = true → o ≠ op_resetAxes →
  let w0 := (artist_deactivate r w).2 in
  (r ∉ getActiveArtists w0)
  ∧ (r ∉ artists (canvas (exec o w0).2))
  ∧ obj (exec o w0).2 r = deactivate (obj w r).
Proof.
  intros Hids Hr Ho Hne w0.
  assert (Hobj0 : ∀ r', obj w0 r' = if bool_decide (r' = r)
                                    then deactivate (obj w r) else obj w r').
  { intros r'. unfold w0, obj. simpl. case_bool_decide as E.
    - subst r'. by rewrite lookup_total_insert_eq.
    - by rewrite lookup_total_insert_ne. }
  assert (Hr0 : obj w0 r = deactivate (obj w r))
    by (by rewrite Hobj0, bool_decide_eq_true_2).
  assert (Hids0 : ids_distinct w0).
  { apply ids_distinct_inj. intros r1 r2 H1 H2.
    assert (Hid : ∀ r', id (obj w0 r') = id (obj w r')).
    { intros r'. rewrite Hobj0. by case_bool_decide as E; [subst r'|]. }
    rewrite !Hid. by apply (proj1 (ids_distinct_inj w) Hids). }
  assert (Hact : ∀ f, isActive (obj w0 r) f = false)
    by (intros f; rewrite Hr0; by apply isActive_deactivated).
  assert (Hdone : ∀ f, isDone (obj w0 r) f = true)
    by (intros f; rewrite Hr0; by apply isDone_deactivated).
  assert (Hv : ∀ f, visit f (obj w0 r) = obj w0 r)
    by (intros f; unfold visit; by rewrite Hact).
  split.
  { unfold getActiveArtists. rewrite list_elem_of_filter, Hact.
    by intros [? _]. }
  destruct (frame_op_state o w0 Ho) as [(-> & _)|(_ & wd & Hdraw & Hobjs & Harts)];
    [done|].
  destruct (Canvas_draw_after w0 Hids0) as (wd' & Hdraw' & Hres & Hobjd & _).
  rewrite Hdraw in Hdraw'. injection Hdraw' as <-.
  split.
  - rewrite Harts, Hres. intros [Hnd _]%list_elem_of_filter.
    rewrite Hv, Hdone in Hnd. done.
  - unfold obj at 1. rewrite Hobjs. fold (obj wd r).
    by rewrite Hobjd, bool_decide_eq_true_2, Hv.
Qed.

Lemma deactivated_removed_by_next_pass_witness :
  ids_distinct lifetime_world
  ∧ (0%nat ∈ artists (canvas lifetime_world))
  ∧ (0%nat ∉ artists (canvas
       (exec (op_save "out" "f" (Ok tt)) (artist_deactivate 0%nat lifetime_world).2).2)).
Proof.
  assert (Hids : ids_distinct lifetime_world)
    by (by apply (bool_decide_unpack _); vm_compute).
  assert (Hr : 0%nat ∈ artists (canvas lifetime_world))
    by (by apply (bool_decide_unpack _); vm_compute).
  split; [exact Hids|]. split; [exact Hr|].
  by destruct (deactivated_removed_by_next_pass lifetime_world 0%nat
                 (op_save "out" "f" (Ok tt)) Hids Hr eq_refl ltac:(discriminate))
    as (_ & H & _).
Defined.
